(** * Write-ahead log: the record log (log.go) and the key-value store on
      top of it (wal.go), embedded as state-passing functions.

    A file system maps paths to byte sequences; an open [*os.File] is a path
    with a file offset; [FileLog] and [WriteAheadLog] are the two structs of
    the package.  Calls that can fail yield an [outcome]; the state they have
    reached is returned next to it, as the Go code leaves it behind. *)

From Stdlib Require Import ZArith Lia List.
From Stdlib.Strings Require Import Byte.
From stdpp Require Import gmap strings list.

Local Open Scope Z_scope.

(* ===================================================================== *)
(** ** Bytes and machine integers *)
(* ===================================================================== *)

#[global] Instance byte_eq_dec : EqDecision byte := Byte.byte_eq_dec.
#[global] Instance byte_countable : Countable byte :=
  inj_countable Byte.to_N Byte.of_N Byte.of_to_N.

Definition byte_to_Z (b : byte) : Z := Z.of_N (Byte.to_N b).

(** [byte(z)]: the low eight bits of [z]. *)
Definition byte_of_Z (z : Z) : byte :=
  match Byte.of_N (Z.to_N (z mod 256)) with
  | Some b => b
  | None => x00
  end.

Definition MaxInt64 : Z := 2 ^ 63 - 1.

(** [uint64(z)] and [int64(z)] conversions: wrap-around modulo 2^64. *)
Definition u64 (z : Z) : Z := z mod 2 ^ 64.
Definition int64 (z : Z) : Z :=
  let u := u64 z in if u <? 2 ^ 63 then u else u - 2 ^ 64.

(** [binary.BigEndian]: [n] bytes of [v], most significant first (what
    [binary.Write] puts in the buffer), and the value of a byte sequence
    read that way (what [binary.Read] stores in its target). *)
Fixpoint be_put (n : nat) (v : Z) : list byte :=
  match n with
  | O => []
  | S n' => byte_of_Z (Z.shiftr v (8 * Z.of_nat n')) :: be_put n' v
  end.

Definition be_get (bs : list byte) : Z :=
  fold_left (fun acc b => acc * 256 + byte_to_Z b) bs 0.

(* ===================================================================== *)
(** ** hash/crc32, IEEE polynomial *)
(* ===================================================================== *)

Module crc32.

(** The reversed IEEE polynomial, [crc32.IEEE]. *)
Definition IEEE : Z := 0xedb88320.

(** One bit of the shift register, as in the table construction
    ([if crc&1 == 1 { crc = (crc >> 1) ^ poly } else { crc >>= 1 }]). *)
Definition shift1 (crc : Z) : Z :=
  if Z.odd crc then Z.lxor (Z.shiftr crc 1) IEEE else Z.shiftr crc 1.

(** One input byte: the byte is folded into the low bits and shifted out. *)
Definition update1 (crc : Z) (v : byte) : Z :=
  Nat.iter 8 shift1 (Z.lxor crc (byte_to_Z v)).

Definition update (crc : Z) (p : list byte) : Z :=
  Z.lxor (fold_left update1 p (Z.lxor crc 0xffffffff)) 0xffffffff.

Definition ChecksumIEEE (data : list byte) : Z := update 0 data.

End crc32.

(* ===================================================================== *)
(** ** Errors and outcomes *)
(* ===================================================================== *)

(** The error values the package can hand to its caller. [ErrInvalid] is
    [os.ErrInvalid], what every method of a nil [*os.File] returns; [EINVAL]
    is the seek error of a negative offset; [EFBIG] the write error past the
    largest file offset; [ErrCorruption] is
    [errors.New("data corruption detected")]; [ErrGob] stands for the errors
    of encoding/gob. *)
Inductive error : Type :=
| EOF
| ErrUnexpectedEOF
| ErrInvalid
| EINVAL
| EFBIG
| ErrCorruption
| ErrGob (msg : string).

#[global] Instance error_eq_dec : EqDecision error.
Proof. solve_decision. Defined.

(** A call returns a value with a nil error, returns a non-nil error, or
    panics. *)
Inductive outcome (A : Type) : Type :=
| Ok (a : A)
| Err (e : error)
| Panic (msg : string).
Arguments Ok {A} a.
Arguments Err {A} e.
Arguments Panic {A} msg.

(** State-passing computations over a state [S]. *)
Definition M (S A : Type) : Type := S -> outcome A * S.

Definition mret {S A} (a : A) : M S A := fun s => (Ok a, s).
Definition merr {S A} (e : error) : M S A := fun s => (Err e, s).
Definition mpanic {S A} (msg : string) : M S A := fun s => (Panic msg, s).
Definition mbind {S A B} (c : M S A) (k : A -> M S B) : M S B :=
  fun s =>
    match c s with
    | (Ok a, s') => k a s'
    | (Err e, s') => (Err e, s')
    | (Panic msg, s') => (Panic msg, s')
    end.

Declare Scope go_scope.
Delimit Scope go_scope with go.
Notation "x <- c ;; k" := (mbind c (fun x => k))
  (at level 100, c at next level, right associativity) : go_scope.
Notation "c ;;; k" := (mbind c (fun _ => k))
  (at level 100, right associativity) : go_scope.

(* ===================================================================== *)
(** ** The operating system: regular files *)
(* ===================================================================== *)

(** The file system: the bytes of every regular file, by path. *)
Abbreviation FS := (gmap string (list byte)).

(** An open [os.File]: the path it was opened on and its file offset. *)
Record File : Type := mkFile { fname : string; fpos : Z }.

(** The bytes stored at [path]; none when there is no such file. *)
Definition file_bytes (fs : FS) (path : string) : list byte :=
  default [] (fs !! path).

Definition contents (fs : FS) (f : File) : list byte :=
  file_bytes fs (fname f).

Definition size (fs : FS) (f : File) : Z := Z.of_nat (length (contents fs f)).

(** [os.OpenFile(path, os.O_CREATE|os.O_RDWR, 0666)]: the file is created
    empty when it does not exist; the offset starts at 0.  The directory and
    the permissions are taken to allow it. *)
Definition OpenFile (path : string) : M FS File :=
  fun fs =>
    match fs !! path with
    | Some _ => (Ok (mkFile path 0), fs)
    | None => (Ok (mkFile path 0), <[path := []]> fs)
    end.

Inductive whence : Type := SeekStart | SeekEnd.

(** The methods of [*os.File] have a pointer receiver that may be nil: the
    state they run on is the receiver and the file system. *)
Abbreviation FileSt := (option File * FS)%type.

(** [f.Seek(offset, whence)]. *)
Definition Seek (offset : Z) (w : whence) : M FileSt Z :=
  fun '(rcv, fs) =>
    match rcv with
    | None => (Err ErrInvalid, (rcv, fs))
    | Some f =>
        let target := match w with
                      | SeekStart => offset
                      | SeekEnd => size fs f + offset
                      end in
        if target <? 0 then (Err EINVAL, (rcv, fs))
        else (Ok target, (Some (mkFile (fname f) target), fs))
    end.

(** [f.Write(b)]: the bytes go to the file offset, which moves past them;
    a gap between the end of the file and the offset reads as zeros.  A
    write that would pass the largest file offset fails; the device is taken
    to have room for every other one. *)
Definition Write (b : list byte) : M FileSt Z :=
  fun '(rcv, fs) =>
    match rcv with
    | None => (Err ErrInvalid, (rcv, fs))
    | Some f =>
        let n := Z.of_nat (length b) in
        if MaxInt64 <? fpos f + n then (Err EFBIG, (rcv, fs))
        else
          let old := contents fs f in
          let pos := Z.to_nat (fpos f) in
          let new := take pos (old ++ replicate (pos - length old)%nat x00)
                       ++ b ++ drop (pos + length b)%nat old in
          (Ok n, (Some (mkFile (fname f) (fpos f + n)), <[fname f := new]> fs))
    end.

(** The bytes between the file offset and the end of the file. *)
Definition remaining (fs : FS) (f : File) : list byte :=
  if size fs f <=? fpos f then [] else drop (Z.to_nat (fpos f)) (contents fs f).

(** [io.ReadFull(f, buf)] with [len(buf) = n]: exactly [n] bytes, or [io.EOF]
    when no byte could be read, or [io.ErrUnexpectedEOF] when the file ends
    after some but not all of them. *)
Definition ReadFull (n : Z) : M FileSt (list byte) :=
  fun '(rcv, fs) =>
    if n =? 0 then (Ok [], (rcv, fs))
    else
      match rcv with
      | None => (Err ErrInvalid, (rcv, fs))
      | Some f =>
          let rest := remaining fs f in
          let avail := Z.of_nat (length rest) in
          if n <=? avail
          then (Ok (take (Z.to_nat n) rest),
                (Some (mkFile (fname f) (fpos f + n)), fs))
          else if avail =? 0 then (Err EOF, (rcv, fs))
          else (Err ErrUnexpectedEOF,
                (Some (mkFile (fname f) (fpos f + avail)), fs))
      end.

(** [binary.Read(f, binary.BigEndian, &x)] for an unsigned [x] of [n] bytes. *)
Definition binary_Read (n : nat) : M FileSt Z :=
  (bs <- ReadFull (Z.of_nat n) ;; mret (be_get bs))%go.

(** The largest length [make([]byte, n)] accepts ([maxAlloc] of the Go
    runtime on 64-bit Linux); above it the runtime panics, and an allocation
    within it is taken to succeed. *)
Definition maxAlloc : Z := 2 ^ 48.

(* ===================================================================== *)
(** ** log.go: FileLog *)
(* ===================================================================== *)

Record FileLog : Type := mkFileLog {
  file : option File;
  buffer : option (list byte)
}.

(** Running a computation on the [file] field of a [FileLog]. *)
Definition on_file {A} (c : M FileSt A) : M (FileLog * FS) A :=
  fun '(fl, fs) =>
    let '(r, (rcv, fs')) := c (file fl, fs) in
    (r, (mkFileLog rcv (buffer fl), fs')).

(** A [FileLog] whose file is open on [path] with its offset at [pos]. *)
Definition openAt (path : string) (pos : Z) (b : option (list byte)) : FileLog :=
  mkFileLog (Some (mkFile path pos)) b.

Definition NewFileLog (path : string) : M FS FileLog :=
  (f <- OpenFile path ;; mret (mkFileLog (Some f) None))%go.

Definition Append (record : list byte) : M (FileLog * FS) Z :=
  (signedOffset <- on_file (Seek 0 SeekEnd) ;;
   let offset := u64 signedOffset in
   let lenRecord := u64 (Z.of_nat (length record)) in
   let buf := [] ++ be_put 8 lenRecord in
   let buf := buf ++ record in
   let checksum := crc32.ChecksumIEEE record in
   let buf := buf ++ be_put 4 checksum in
   on_file (Write buf) ;;;
   mret offset)%go.

Definition Read (offset : Z) : M (FileLog * FS) (list byte * Z) :=
  (on_file (Seek (int64 offset) SeekStart) ;;;
   lenRecord <- on_file (binary_Read 8) ;;
   record <- (if maxAlloc <? lenRecord
              then mpanic "makeslice: len out of range"
              else on_file (ReadFull lenRecord)) ;;
   checksum <- on_file (binary_Read 4) ;;
   if negb (crc32.ChecksumIEEE record =? checksum)
   then merr ErrCorruption
   else
     let nextOffset := u64 (offset + 8 + lenRecord + 4) in
     mret (record, nextOffset))%go.

(** [fl.file.Close()] is taken to return nil for the file that [fl] holds. *)
Definition Close : M (FileLog * FS) unit :=
  fun '(fl, fs) =>
    match file fl with
    | Some _ => (Ok tt, (mkFileLog None (buffer fl), fs))
    | None => (Ok tt, (fl, fs))
    end.

(** The errors of a read on an open log. *)
Definition read_errors : list error := [EINVAL; EOF; ErrUnexpectedEOF; ErrCorruption].

(** What [Append] writes for a record: length, payload, checksum. *)
Definition frame (record : list byte) : list byte :=
  be_put 8 (u64 (Z.of_nat (length record))) ++ record
    ++ be_put 4 (crc32.ChecksumIEEE record).

(** A file that holds the given records and nothing else. *)
Definition frames (records : list (list byte)) : list byte :=
  concat (map frame records).

(** A caller that appends the records one after the other and keeps the
    offsets it is given. *)
Fixpoint append_all (records : list (list byte)) : M (FileLog * FS) (list Z) :=
  match records with
  | [] => mret []
  | r :: rs => (o <- Append r ;; os <- append_all rs ;; mret (o :: os))%go
  end.

(** The offsets at which the frames of the records start in a file, the
    first of them at [start]. *)
Fixpoint offsets_from (start : Z) (records : list (list byte)) : list Z :=
  match records with
  | [] => []
  | r :: rs => start :: offsets_from (start + Z.of_nat (length (frame r))) rs
  end.

(** [[]byte(s)] for a string literal [s]. *)
Definition bytes (s : string) : list byte := String.list_byte_of_string s.

(** Damage to stored bytes: bit [j] of the byte at index [i] is inverted. *)
Definition flip_bit (j : Z) (b : byte) : byte :=
  byte_of_Z (Z.lxor (byte_to_Z b) (Z.shiftl 1 j)).

Definition flip_at (i : nat) (j : Z) (l : list byte) : list byte :=
  alter (flip_bit j) i l.

(** A log that holds the given records, appended to an empty file. *)
Definition log_of (records : list (list byte))
  : outcome (list Z) * (FileLog * FS) :=
  append_all records (openAt "log" 0 None, {["log" := []]}).


(** The error of such a reading is neither the corruption error nor the
    error that [Read] returns at the very end of the log. *)
Definition foreign_offset_error_distinct (records : list (list byte)) (o : Z)
  : Prop :=
  forall offsets s,
    log_of records = (Ok offsets, s) ->
    ~ In o offsets ->
    exists e, (Read o s).1 = Err e
              /\ e <> ErrCorruption
              /\ (Read (Z.of_nat (length (file_bytes s.2 "log"))) s).1 <> Err e.

(* ===================================================================== *)
(** ** wal.go: WriteAheadLog *)
(* ===================================================================== *)

(** A [[]byte] value: nil, or a slice with the given bytes.  The empty
    non-nil slice [Some []] and nil are different Go values of length 0.
    A slice stands for the bytes it holds when it is passed: writes of the
    caller to its array after the call are not modelled. *)
Abbreviation slice := (option (list byte)).

Definition bytes_of (s : slice) : list byte := default [] s.

(** [string(key)]: the bytes of the slice as an immutable map key. *)
Definition string_of (key : slice) : list byte := bytes_of key.

Definition WriteOperationType : Type := Z.
Definition PUT : WriteOperationType := 0.
Definition DELETE : WriteOperationType := 1.

(** The struct [WriteOperation]; its field [WriteOperationType] is [opType]
    here, the name being taken by the type. *)
Record WriteOperation : Type := mkWriteOperation {
  opType : WriteOperationType;
  Key : slice;
  Value : slice
}.

(** encoding/gob, which is not part of the package: what
    [gob.NewEncoder(buf).Encode(op)] leaves in [buf] and what
    [gob.NewDecoder(bytes.NewBuffer(record)).Decode(&op)] stores in a zero
    [op]. *)
Class Gob : Type := {
  gob_Encode : WriteOperation -> outcome (list byte);
  gob_Decode : list byte -> outcome WriteOperation
}.

(** gob does not transmit a field that has the zero value of its type, and a
    slice of length 0 counts as zero: such a field is nil after decoding. *)
Definition omit_zero (s : slice) : slice :=
  match s with
  | Some [] => None
  | _ => s
  end.

Definition transmitted (op : WriteOperation) : WriteOperation :=
  mkWriteOperation (opType op) (omit_zero (Key op)) (omit_zero (Value op)).

(** The contract of encoding/gob the store relies on: what was encoded is
    decoded again, up to omitted zero fields, and an encoding is a byte slice
    that fits in memory. *)
Definition GobLaw `{Gob} : Prop :=
  forall op bs,
    gob_Encode op = Ok bs ->
    gob_Decode bs = Ok (transmitted op)
    /\ Z.of_nat (length bs) <= maxAlloc.

(** An encoder and decoder with that contract, to run the store on concrete
    inputs: one byte of type, four bytes of key length, key, value. *)
Definition ref_Encode (op : WriteOperation) : outcome (list byte) :=
  let k := bytes_of (Key op) in
  let v := bytes_of (Value op) in
  if (0 <=? opType op) && (opType op <? 256)
     && (Z.of_nat (length k) <? 2 ^ 32)
     && (Z.of_nat (length k + length v) + 5 <=? maxAlloc)
  then Ok (byte_of_Z (opType op) :: be_put 4 (Z.of_nat (length k)) ++ k ++ v)
  else Err (ErrGob "encoder: message too big").

Definition nonempty (l : list byte) : slice :=
  match l with
  | [] => None
  | _ => Some l
  end.

Definition ref_Decode (bs : list byte) : outcome WriteOperation :=
  match bs with
  | [] => Err EOF
  | t :: rest =>
      if Z.of_nat (length rest) <? 4 then Err ErrUnexpectedEOF
      else
        let klen := be_get (take 4 rest) in
        let body := drop 4 rest in
        if Z.of_nat (length body) <? klen then Err ErrUnexpectedEOF
        else
          Ok (mkWriteOperation (byte_to_Z t)
                (nonempty (take (Z.to_nat klen) body))
                (nonempty (drop (Z.to_nat klen) body)))
  end.

Definition RefGob : Gob := {| gob_Encode := ref_Encode; gob_Decode := ref_Decode |}.

Record WriteAheadLog : Type := mkWriteAheadLog {
  log : FileLog;
  data : gmap (list byte) slice
}.

(** Running a computation on the [log] field of a [WriteAheadLog]. *)
Definition on_log {A} (c : M (FileLog * FS) A) : M (WriteAheadLog * FS) A :=
  fun '(wal, fs) =>
    let '(r, (fl, fs')) := c (log wal, fs) in
    (r, (mkWriteAheadLog fl (data wal), fs')).

(** A value that is returned with its error, or the error alone. *)
Definition lift {S A} (r : outcome A) : M S A := fun s => (r, s).

(** The [switch] of the replay loop. *)
Definition apply_op (op : WriteOperation) (data : gmap (list byte) slice)
  : gmap (list byte) slice :=
  if opType op =? PUT then <[string_of (Key op) := Value op]> data
  else if opType op =? DELETE then delete (string_of (Key op)) data
  else data.

Section WAL.
Context `{Gob}.

(** The [for] loop of [readAllLogEntries]; [None] when the bound on the
    number of iterations is reached. *)
Fixpoint readLoop (fuel : nat) (data : gmap (list byte) slice) (offset : Z)
  (s : FileLog * FS) : option (outcome (gmap (list byte) slice) * (FileLog * FS)) :=
  match fuel with
  | O => None
  | S fuel' =>
      match Read offset s with
      | (Err e, s') =>
          if decide (e = EOF) then Some (Ok data, s') else Some (Err e, s')
      | (Panic msg, s') => Some (Panic msg, s')
      | (Ok (record, nextOffset), s') =>
          match gob_Decode record with
          | Err e => Some (Err e, s')
          | Panic msg => Some (Panic msg, s')
          | Ok op => readLoop fuel' (apply_op op data) nextOffset s'
          end
      end
  end.

(** Every iteration that goes on has read a record of at least twelve
    bytes, so the loop ends within as many iterations as the file has
    bytes (lemma [readLoop_total]). *)
Definition iterations (s : FileLog * FS) : nat :=
  match file s.1 with
  | Some f => S (length (contents s.2 f))
  | None => 1
  end.

Definition readAllLogEntries : M (FileLog * FS) (gmap (list byte) slice) :=
  fun s =>
    match readLoop (iterations s) ∅ 0 s with
    | Some r => r
    | None => (Panic "unreachable", s)
    end.

Definition NewWriteAheadLogWithFileLog (log : FileLog) : M FS WriteAheadLog :=
  fun fs =>
    match readAllLogEntries (log, fs) with
    | (Ok data, (log', fs')) => (Ok (mkWriteAheadLog log' data), fs')
    | (Err e, (_, fs')) => (Err e, fs')
    | (Panic msg, (_, fs')) => (Panic msg, fs')
    end.

Definition NewWriteAheadLog (path : string) : M FS WriteAheadLog :=
  (log <- NewFileLog path ;; NewWriteAheadLogWithFileLog log)%go.

Definition Get (wal : WriteAheadLog) (key : slice) : slice * option error :=
  (default None (data wal !! string_of key), None).

Definition Put (key value : slice) : M (WriteAheadLog * FS) unit :=
  (let op := mkWriteOperation PUT key value in
   buf <- lift (gob_Encode op) ;;
   on_log (Append buf) ;;;
   fun '(wal, fs) =>
     (Ok tt, (mkWriteAheadLog (log wal) (<[string_of key := value]> (data wal)), fs)))%go.

Definition Delete (key : slice) : M (WriteAheadLog * FS) unit :=
  (let op := mkWriteOperation DELETE key None in
   buf <- lift (gob_Encode op) ;;
   on_log (Append buf) ;;;
   fun '(wal, fs) =>
     (Ok tt, (mkWriteAheadLog (log wal) (delete (string_of key) (data wal)), fs)))%go.

(** What the replay loop computes from the payloads of the records it
    reads, in the order of the file. *)
Fixpoint replay (payloads : list (list byte)) (data : gmap (list byte) slice)
  : outcome (gmap (list byte) slice) :=
  match payloads with
  | [] => Ok data
  | p :: payloads' =>
      match gob_Decode p with
      | Ok op => replay payloads' (apply_op op data)
      | Err e => Err e
      | Panic msg => Panic msg
      end
  end.

(** *** Callers *)

(** A mutation issued by a caller. *)
Inductive Cmd : Type :=
| CPut (key value : slice)
| CDelete (key : slice).

(** The [WriteOperation] that [Put] and [Delete] build. *)
Definition op_of (c : Cmd) : WriteOperation :=
  match c with
  | CPut key value => mkWriteOperation PUT key value
  | CDelete key => mkWriteOperation DELETE key None
  end.

Definition exec (c : Cmd) : M (WriteAheadLog * FS) unit :=
  match c with
  | CPut key value => Put key value
  | CDelete key => Delete key
  end.

(** A caller that issues the mutations one after the other and stops at
    the first error. *)
Fixpoint run (cs : list Cmd) : M (WriteAheadLog * FS) unit :=
  match cs with
  | [] => mret tt
  | c :: cs' => (exec c ;;; run cs')%go
  end.

(** A caller that goes on after an error; the mutations that returned a
    nil error are collected in the order of the calls. *)
Fixpoint attempt (cs : list Cmd) (s : WriteAheadLog * FS)
  : list Cmd * (WriteAheadLog * FS) :=
  match cs with
  | [] => ([], s)
  | c :: cs' =>
      match exec c s with
      | (Ok _, s') => let '(h, s'') := attempt cs' s' in (c :: h, s'')
      | (_, s') => attempt cs' s'
      end
  end.

(** The most recent mutation of the key [k] in a history of mutations. *)
Definition last_write (k : list byte) (h : list Cmd) : option Cmd :=
  fold_left
    (fun acc c =>
       if decide (string_of (Key (op_of c)) = k) then Some c else acc)
    h None.

(** What a reader is to see for a key after a history of mutations that
    returned a nil error: the value of the most recent one if that was a
    [Put], nil if it was a [Delete], and what was there before otherwise. *)
Definition visible (k : list byte) (h : list Cmd) (before : slice) : slice :=
  match last_write k h with
  | Some (CPut _ value) => value
  | Some (CDelete _) => None
  | None => before
  end.

(** Open the store at [path], issue the mutations, hand back the store. *)
Definition session (path : string) (cs : list Cmd) : M FS WriteAheadLog :=
  fun fs =>
    match NewWriteAheadLog path fs with
    | (Ok wal, fs') =>
        match run cs (wal, fs') with
        | (Ok _, (wal', fs'')) => (Ok wal', fs'')
        | (Err e, (_, fs'')) => (Err e, fs'')
        | (Panic msg, (_, fs'')) => (Panic msg, fs'')
        end
    | (Err e, fs') => (Err e, fs')
    | (Panic msg, fs') => (Panic msg, fs')
    end.

(** [wal.log.Close()] followed by [NewWriteAheadLog(path)]. *)
Definition reopen (path : string) (wal : WriteAheadLog) : M FS WriteAheadLog :=
  fun fs =>
    match Close (log wal, fs) with
    | (Ok _, (_, fs')) => NewWriteAheadLog path fs'
    | (Err e, (_, fs')) => (Err e, fs')
    | (Panic msg, (_, fs')) => (Panic msg, fs')
    end.

(** The map of a store that was opened, or why it was not. *)
Definition recovered (r : outcome WriteAheadLog)
  : outcome (gmap (list byte) slice) :=
  match r with
  | Ok wal => Ok (data wal)
  | Err e => Err e
  | Panic msg => Panic msg
  end.

(** After the mutations [cs] on a store opened on an empty file at [path],
    closing the log and opening the store again yields the very results
    of [Get] that the first store gave. *)
Definition reopen_same_results (path : string) (cs : list Cmd) : Prop :=
  forall fs wal fs1,
    file_bytes fs path = [] ->
    session path cs fs = (Ok wal, fs1) ->
    exists wal' fs2,
      reopen path wal fs1 = (Ok wal', fs2)
      /\ forall key, Get wal' key = Get wal key.

End WAL.

(* ===================================================================== *)
(** * Properties *)
(* ===================================================================== *)

(** An equation between closed terms, decided by evaluation. *)
Ltac vm_refl :=
  lazymatch goal with
  | |- ?a = ?b => vm_cast_no_check (@eq_refl _ b)
  end.

(** ** Bytes and big-endian integers *)

Lemma byte_to_Z_range (b : byte) : 0 <= byte_to_Z b < 256.
Proof.
  unfold byte_to_Z. pose proof (Byte.to_N_bounded b). lia.
Qed.

Lemma byte_of_to_Z (b : byte) : byte_of_Z (byte_to_Z b) = b.
Proof.
  unfold byte_of_Z. pose proof (byte_to_Z_range b) as Hr.
  rewrite Z.mod_small by exact Hr.
  unfold byte_to_Z. rewrite N2Z.id, Byte.of_to_N. reflexivity.
Qed.

Lemma byte_to_of_Z (z : Z) : byte_to_Z (byte_of_Z z) = z mod 256.
Proof.
  unfold byte_of_Z, byte_to_Z.
  pose proof (Z.mod_pos_bound z 256 ltac:(lia)) as Hr.
  destruct (Byte.of_N (Z.to_N (z mod 256))) as [b|] eqn:E.
  - apply Byte.to_of_N in E. rewrite E. lia.
  - apply Byte.of_N_None_iff in E. lia.
Qed.

Lemma byte_to_Z_inj (a b : byte) : byte_to_Z a = byte_to_Z b -> a = b.
Proof.
  intros E. rewrite <- (byte_of_to_Z a), <- (byte_of_to_Z b), E. reflexivity.
Qed.

Lemma length_be_put (n : nat) (v : Z) : length (be_put n v) = n.
Proof. induction n as [|n IH]; simpl; [reflexivity | now rewrite IH]. Qed.

Lemma be_fold_acc (l : list byte) (acc : Z) :
  fold_left (fun a b => a * 256 + byte_to_Z b) l acc
  = acc * 256 ^ Z.of_nat (length l) + be_get l.
Proof.
  unfold be_get. revert acc.
  induction l as [|b l IH]; intros acc.
  - simpl. lia.
  - cbn [fold_left length]. rewrite IH, (IH (0 * 256 + _)).
    rewrite Nat2Z.inj_succ, Z.pow_succ_r by lia. lia.
Qed.

Lemma be_get_cons (b : byte) (l : list byte) :
  be_get (b :: l) = byte_to_Z b * 256 ^ Z.of_nat (length l) + be_get l.
Proof.
  unfold be_get at 1. cbn [fold_left]. rewrite be_fold_acc. lia.
Qed.

Lemma be_get_range (l : list byte) : 0 <= be_get l < 256 ^ Z.of_nat (length l).
Proof.
  induction l as [|b l IH].
  - cbn. lia.
  - rewrite be_get_cons. cbn [length].
    rewrite Nat2Z.inj_succ, Z.pow_succ_r by lia.
    pose proof (byte_to_Z_range b). nia.
Qed.

Lemma be_get_put (n : nat) (v : Z) :
  be_get (be_put n v) = v mod 256 ^ Z.of_nat n.
Proof.
  induction n as [|n IH].
  - cbn. now rewrite Z.mod_1_r.
  - cbn [be_put]. rewrite be_get_cons, length_be_put, IH, byte_to_of_Z.
    rewrite Z.shiftr_div_pow2 by lia.
    rewrite Nat2Z.inj_succ, Z.pow_succ_r by lia.
    replace (2 ^ (8 * Z.of_nat n)) with (256 ^ Z.of_nat n)
      by (rewrite Z.pow_mul_r by lia; reflexivity).
    assert (0 < 256 ^ Z.of_nat n) by (apply Z.pow_pos_nonneg; lia).
    rewrite (Z.mul_comm 256), Z.rem_mul_r by lia. lia.
Qed.

Lemma be_put_add (n : nat) (a x : Z) :
  be_put n (a * 256 ^ Z.of_nat n + x) = be_put n x.
Proof.
  revert a. induction n as [|n IH]; intros a; [reflexivity|].
  cbn [be_put].
  assert (0 < 256 ^ Z.of_nat n) as Hp by (apply Z.pow_pos_nonneg; lia).
  rewrite Nat2Z.inj_succ, Z.pow_succ_r by lia.
  replace (a * (256 * 256 ^ Z.of_nat n)) with ((a * 256) * 256 ^ Z.of_nat n) by ring.
  rewrite IH. f_equal.
  rewrite !Z.shiftr_div_pow2 by lia.
  replace (2 ^ (8 * Z.of_nat n)) with (256 ^ Z.of_nat n)
    by (rewrite Z.pow_mul_r by lia; reflexivity).
  rewrite Z.div_add_l by lia.
  unfold byte_of_Z. now rewrite Z.add_comm, Z.mod_add by lia.
Qed.

Lemma be_put_get (l : list byte) : be_put (length l) (be_get l) = l.
Proof.
  induction l as [|b l IH]; [reflexivity|].
  cbn [length be_put]. rewrite be_get_cons.
  pose proof (be_get_range l) as Hl. pose proof (byte_to_Z_range b) as Hb.
  assert (0 < 256 ^ Z.of_nat (length l)) as Hp by (apply Z.pow_pos_nonneg; lia).
  f_equal.
  - rewrite Z.shiftr_div_pow2 by lia.
    replace (2 ^ (8 * Z.of_nat (length l))) with (256 ^ Z.of_nat (length l))
      by (rewrite Z.pow_mul_r by lia; reflexivity).
    rewrite Z.div_add_l, Z.div_small, Z.add_0_r by lia.
    apply byte_of_to_Z.
  - now rewrite be_put_add.
Qed.

Lemma be_get_inj (l1 l2 : list byte) :
  length l1 = length l2 -> be_get l1 = be_get l2 -> l1 = l2.
Proof.
  intros Hlen E. rewrite <- (be_put_get l1), <- (be_put_get l2), Hlen, E.
  reflexivity.
Qed.

Lemma be_get_put_small (n : nat) (v : Z) :
  0 <= v < 256 ^ Z.of_nat n -> be_get (be_put n v) = v.
Proof. intros Hv. rewrite be_get_put. now apply Z.mod_small. Qed.

Lemma u64_small (z : Z) : 0 <= z < 2 ^ 64 -> u64 z = z.
Proof. intros Hz. unfold u64. now apply Z.mod_small. Qed.

Lemma int64_small (z : Z) : 0 <= z < 2 ^ 63 -> int64 z = z.
Proof.
  intros Hz. unfold int64. rewrite u64_small by lia.
  destruct (Z.ltb_spec z (2 ^ 63)); lia.
Qed.

Lemma int64_nonneg (z : Z) :
  0 <= z < 2 ^ 64 -> 0 <= int64 z -> z < 2 ^ 63 /\ int64 z = z.
Proof.
  intros Hz. unfold int64. rewrite u64_small by lia.
  destruct (Z.ltb_spec z (2 ^ 63)); lia.
Qed.

(** ** CRC-32 *)

Lemma lxor_range (n a b : Z) :
  0 <= n -> 0 <= a < 2 ^ n -> 0 <= b < 2 ^ n -> 0 <= Z.lxor a b < 2 ^ n.
Proof.
  intros Hn Ha Hb. split; [apply Z.lxor_nonneg; lia|].
  destruct (Z.eq_dec (Z.lxor a b) 0) as [E|NE].
  { rewrite E. apply Z.pow_pos_nonneg; lia. }
  assert (0 <= Z.lxor a b) by (apply Z.lxor_nonneg; lia).
  assert (0 < n).
  { destruct (Z.eq_dec n 0) as [->|]; [|lia].
    assert (a = 0) by lia. assert (b = 0) by lia. subst. now cbn in NE. }
  apply Z.log2_lt_pow2; [lia|].
  eapply Z.le_lt_trans; [apply Z.log2_lxor; lia|].
  apply Z.max_lub_lt.
  - destruct (Z.eq_dec a 0) as [->|]; [cbn; lia | apply Z.log2_lt_pow2; lia].
  - destruct (Z.eq_dec b 0) as [->|]; [cbn; lia | apply Z.log2_lt_pow2; lia].
Qed.

Lemma lxor_cancel_r (a b c : Z) : Z.lxor a c = Z.lxor b c -> a = b.
Proof.
  intros E. apply (f_equal (fun x => Z.lxor x c)) in E.
  now rewrite !Z.lxor_assoc, Z.lxor_nilpotent, !Z.lxor_0_r in E.
Qed.

Lemma lxor_cancel_l (a b c : Z) : Z.lxor c a = Z.lxor c b -> a = b.
Proof. rewrite !(Z.lxor_comm c). apply lxor_cancel_r. Qed.

Lemma shiftr1_range (c : Z) : 0 <= c < 2 ^ 32 -> 0 <= Z.shiftr c 1 < 2 ^ 31.
Proof.
  intros Hc. rewrite Z.shiftr_div_pow2 by lia. change (2 ^ 1) with 2.
  split; [apply Z.div_pos; lia | apply Z.div_lt_upper_bound; lia].
Qed.

Lemma shift1_range (c : Z) : 0 <= c < 2 ^ 32 -> 0 <= crc32.shift1 c < 2 ^ 32.
Proof.
  intros Hc. pose proof (shiftr1_range c Hc). unfold crc32.shift1.
  destruct (Z.odd c); [|lia].
  apply lxor_range; [lia | lia | unfold crc32.IEEE; lia].
Qed.

Lemma shift1_top_bit (c : Z) :
  0 <= c < 2 ^ 32 -> Z.testbit (crc32.shift1 c) 31 = Z.odd c.
Proof.
  intros Hc. unfold crc32.shift1.
  assert (Z.testbit (Z.shiftr c 1) 31 = false) as Hhi.
  { rewrite Z.shiftr_spec by lia. rewrite <- (Z.mod_small c (2 ^ 32)) by lia.
    apply Z.mod_pow2_bits_high. lia. }
  destruct (Z.odd c); [|exact Hhi].
  rewrite Z.lxor_spec, Hhi. reflexivity.
Qed.

Lemma shift1_inj (a b : Z) :
  0 <= a < 2 ^ 32 -> 0 <= b < 2 ^ 32 ->
  crc32.shift1 a = crc32.shift1 b -> a = b.
Proof.
  intros Ha Hb E.
  assert (Z.odd a = Z.odd b) as Hodd
    by (rewrite <- (shift1_top_bit a), <- (shift1_top_bit b), E by lia; reflexivity).
  assert (Z.shiftr a 1 = Z.shiftr b 1) as Hsh.
  { unfold crc32.shift1 in E. rewrite Hodd in E.
    destruct (Z.odd b); [now apply lxor_cancel_r in E | exact E]. }
  rewrite <- !Z.div2_spec in Hsh.
  rewrite (Z.div2_odd a), (Z.div2_odd b), Hodd, Hsh. reflexivity.
Qed.

Lemma iter_shift1_range (n : nat) (c : Z) :
  0 <= c < 2 ^ 32 -> 0 <= Nat.iter n crc32.shift1 c < 2 ^ 32.
Proof.
  intros Hc. induction n as [|n IH]; [exact Hc|].
  cbn [Nat.iter]. now apply shift1_range.
Qed.

Lemma iter_shift1_inj (n : nat) (a b : Z) :
  0 <= a < 2 ^ 32 -> 0 <= b < 2 ^ 32 ->
  Nat.iter n crc32.shift1 a = Nat.iter n crc32.shift1 b -> a = b.
Proof.
  intros Ha Hb. induction n as [|n IH]; [trivial|].
  cbn [Nat.iter]. intros E. apply IH.
  apply shift1_inj in E; [exact E | now apply iter_shift1_range ..].
Qed.

Lemma byte_lxor_range (c : Z) (v : byte) :
  0 <= c < 2 ^ 32 -> 0 <= Z.lxor c (byte_to_Z v) < 2 ^ 32.
Proof.
  intros Hc. pose proof (byte_to_Z_range v).
  apply lxor_range; lia.
Qed.

Lemma update1_range (c : Z) (v : byte) :
  0 <= c < 2 ^ 32 -> 0 <= crc32.update1 c v < 2 ^ 32.
Proof.
  intros Hc. unfold crc32.update1.
  apply iter_shift1_range. now apply byte_lxor_range.
Qed.

Lemma update1_inj_state (a b : Z) (v : byte) :
  0 <= a < 2 ^ 32 -> 0 <= b < 2 ^ 32 ->
  crc32.update1 a v = crc32.update1 b v -> a = b.
Proof.
  intros Ha Hb E. unfold crc32.update1 in E.
  apply iter_shift1_inj in E; [|now apply byte_lxor_range ..].
  now apply lxor_cancel_r in E.
Qed.

Lemma update1_inj_byte (c : Z) (v w : byte) :
  0 <= c < 2 ^ 32 -> crc32.update1 c v = crc32.update1 c w -> v = w.
Proof.
  intros Hc E. unfold crc32.update1 in E.
  apply iter_shift1_inj in E; [|now apply byte_lxor_range ..].
  apply lxor_cancel_l in E. now apply byte_to_Z_inj.
Qed.

Lemma fold_update1_range (p : list byte) (c : Z) :
  0 <= c < 2 ^ 32 -> 0 <= fold_left crc32.update1 p c < 2 ^ 32.
Proof.
  revert c. induction p as [|v p IH]; intros c Hc; [exact Hc|].
  cbn [fold_left]. apply IH. now apply update1_range.
Qed.

Lemma fold_update1_inj (p : list byte) (a b : Z) :
  0 <= a < 2 ^ 32 -> 0 <= b < 2 ^ 32 ->
  fold_left crc32.update1 p a = fold_left crc32.update1 p b -> a = b.
Proof.
  revert a b. induction p as [|v p IH]; intros a b Ha Hb E; [exact E|].
  cbn [fold_left] in E.
  apply IH in E; [|now apply update1_range ..].
  now apply update1_inj_state in E.
Qed.

Lemma ChecksumIEEE_range (p : list byte) :
  0 <= crc32.ChecksumIEEE p < 2 ^ 32.
Proof.
  unfold crc32.ChecksumIEEE, crc32.update.
  apply lxor_range; [lia | | lia].
  apply fold_update1_range. rewrite Z.lxor_0_l. lia.
Qed.

(** Two payloads that differ in exactly one byte have different checksums. *)
Lemma ChecksumIEEE_one_byte (u w : list byte) (b b' : byte) :
  b <> b' ->
  crc32.ChecksumIEEE (u ++ b :: w) <> crc32.ChecksumIEEE (u ++ b' :: w).
Proof.
  intros Hne E. unfold crc32.ChecksumIEEE, crc32.update in E.
  apply lxor_cancel_r in E.
  rewrite !fold_left_app in E. cbn [fold_left] in E.
  set (c := fold_left crc32.update1 u (Z.lxor 0 4294967295)) in E.
  assert (0 <= c < 2 ^ 32) as Hc
    by (subst c; apply fold_update1_range; rewrite Z.lxor_0_l; lia).
  apply fold_update1_inj in E; [|now apply update1_range ..].
  apply update1_inj_byte in E; [|exact Hc]. contradiction.
Qed.

(** ** Files *)

Lemma length_frame (r : list byte) :
  Z.of_nat (length (frame r)) = 8 + Z.of_nat (length r) + 4.
Proof.
  unfold frame. rewrite !length_app, !length_be_put. lia.
Qed.

Lemma file_bytes_insert (fs : FS) (path : string) (l : list byte) :
  file_bytes (<[path := l]> fs) path = l.
Proof. unfold file_bytes. now rewrite lookup_insert_eq. Qed.

Lemma file_bytes_insert_ne (fs : FS) (path path' : string) (l : list byte) :
  path <> path' -> file_bytes (<[path := l]> fs) path' = file_bytes fs path'.
Proof. intros Hne. unfold file_bytes. now rewrite lookup_insert_ne. Qed.

Lemma ReadFull_ok (path : string) (pos : Z) (fs : FS) (pre d post : list byte) :
  file_bytes fs path = pre ++ d ++ post ->
  Z.of_nat (length pre) = pos ->
  ReadFull (Z.of_nat (length d)) (Some (mkFile path pos), fs)
  = (Ok d, (Some (mkFile path (pos + Z.of_nat (length d))), fs)).
Proof.
  intros Hc Hp. unfold ReadFull.
  destruct (Z.eqb_spec (Z.of_nat (length d)) 0) as [E|NE].
  { destruct d; [|cbn in E; lia]. cbn. now rewrite Z.add_0_r. }
  unfold remaining, size, contents. cbn [fname fpos]. rewrite Hc.
  rewrite !length_app.
  destruct (Z.leb_spec (Z.of_nat (length pre + (length d + length post))) pos); [lia|].
  replace (Z.to_nat pos) with (length pre) by lia.
  rewrite drop_app_length, length_app.
  destruct (Z.leb_spec (Z.of_nat (length d)) (Z.of_nat (length d + length post))); [|lia].
  rewrite Nat2Z.id, take_app_length. reflexivity.
Qed.

Lemma ReadFull_inv (f : File) (fs : FS) (n : Z) (d : list byte) (s' : FileSt) :
  ReadFull n (Some f, fs) = (Ok d, s') ->
  0 <= n -> 0 <= fpos f ->
  Z.of_nat (length d) = n
  /\ s' = (Some (mkFile (fname f) (fpos f + n)), fs)
  /\ (exists post, drop (Z.to_nat (fpos f)) (contents fs f) = d ++ post)
  /\ (0 < n -> fpos f + n <= size fs f).
Proof.
  intros E Hn Hp. unfold ReadFull in E.
  destruct (Z.eqb_spec n 0) as [->|NE].
  { inversion E; subst. destruct f as [name p]. cbn [fname fpos].
    rewrite Z.add_0_r. repeat split; [|lia]. eexists. reflexivity. }
  unfold remaining in E.
  destruct (Z.leb_spec (size fs f) (fpos f)) as [Hle|Hlt].
  { cbn [length] in E. destruct (Z.leb_spec n (Z.of_nat 0)); [lia|].
    cbn in E. discriminate. }
  destruct (Z.leb_spec n (Z.of_nat (length (drop (Z.to_nat (fpos f)) (contents fs f)))))
    as [Hle|Hgt].
  2:{ destruct (_ =? 0); discriminate. }
  inversion E; subst; clear E.
  rewrite length_drop in Hle. unfold size in *.
  repeat split.
  - rewrite length_take, length_drop. lia.
  - exists (drop (Z.to_nat n) (drop (Z.to_nat (fpos f)) (contents fs f))).
    now rewrite take_drop.
  - lia.
Qed.

(** ** FileLog *)

Lemma Append_open (path : string) (pos : Z) (b : option (list byte)) (fs : FS)
  (record : list byte) :
  let old := file_bytes fs path in
  Append record (openAt path pos b, fs)
  = if MaxInt64 <? Z.of_nat (length old) + Z.of_nat (length (frame record))
    then (Err EFBIG, (openAt path (Z.of_nat (length old)) b, fs))
    else (Ok (Z.of_nat (length old)),
          (openAt path (Z.of_nat (length old) + Z.of_nat (length (frame record))) b,
           <[path := old ++ frame record]> fs)).
Proof.
  intros old. unfold Append, mbind, on_file, openAt, Seek, Write, mret.
  cbn [file buffer fname fpos]. unfold size, contents. cbn [fname].
  fold old. rewrite Z.add_0_r.
  destruct (Z.ltb_spec (Z.of_nat (length old)) 0); [lia|].
  cbn [app file buffer fname fpos]. rewrite <- app_assoc. fold (frame record).
  destruct (Z.ltb_spec MaxInt64 (Z.of_nat (length old) + Z.of_nat (length (frame record))));
    [reflexivity|].
  fold old.
  rewrite Nat2Z.id, Nat.sub_diag. cbn [replicate].
  rewrite app_nil_r, take_ge, drop_ge, app_nil_r by lia.
  rewrite u64_small; [reflexivity|]. unfold MaxInt64 in *. lia.
Qed.

Lemma Append_closed (b : option (list byte)) (fs : FS) (record : list byte) :
  Append record (mkFileLog None b, fs) = (Err ErrInvalid, (mkFileLog None b, fs)).
Proof. reflexivity. Qed.

Lemma Read_closed (b : option (list byte)) (fs : FS) (offset : Z) :
  Read offset (mkFileLog None b, fs) = (Err ErrInvalid, (mkFileLog None b, fs)).
Proof.
  unfold Read, mbind, on_file, Seek. cbn [file buffer].
  reflexivity.
Qed.

Lemma on_file_ReadFull_ok (path : string) (pos : Z) (b : option (list byte))
  (fs : FS) (pre d post : list byte) :
  file_bytes fs path = pre ++ d ++ post ->
  Z.of_nat (length pre) = pos ->
  on_file (ReadFull (Z.of_nat (length d))) (openAt path pos b, fs)
  = (Ok d, (openAt path (pos + Z.of_nat (length d)) b, fs)).
Proof.
  intros Hc Hp. unfold on_file. cbn [openAt file buffer].
  now rewrite (ReadFull_ok _ _ _ pre d post).
Qed.

Lemma on_file_binary_Read_ok (path : string) (pos : Z) (b : option (list byte))
  (fs : FS) (pre post : list byte) (n : nat) (v : Z) :
  file_bytes fs path = pre ++ be_put n v ++ post ->
  Z.of_nat (length pre) = pos ->
  0 <= v < 256 ^ Z.of_nat n ->
  on_file (binary_Read n) (openAt path pos b, fs)
  = (Ok v, (openAt path (pos + Z.of_nat n) b, fs)).
Proof.
  intros Hc Hp Hv. unfold on_file, binary_Read, mbind, mret.
  cbn [openAt file buffer].
  rewrite <- (length_be_put n v) at 1.
  rewrite (ReadFull_ok _ _ _ pre (be_put n v) post) by assumption.
  now rewrite be_get_put_small, length_be_put.
Qed.

(** Reading where a length, that many bytes and four more bytes are stored
    compares the checksum of the bytes with the four. *)
Lemma Read_stored (path : string) (pos : Z) (b : option (list byte)) (fs : FS)
  (pre r cs post : list byte) :
  file_bytes fs path
  = pre ++ be_put 8 (u64 (Z.of_nat (length r))) ++ r ++ cs ++ post ->
  length cs = 4%nat ->
  Z.of_nat (length pre) <= MaxInt64 ->
  Z.of_nat (length r) <= maxAlloc ->
  let o := Z.of_nat (length pre) in
  Read o (openAt path pos b, fs)
  = (if crc32.ChecksumIEEE r =? be_get cs
     then Ok (r, o + 8 + Z.of_nat (length r) + 4)
     else Err ErrCorruption,
     (openAt path (o + 8 + Z.of_nat (length r) + 4) b, fs)).
Proof.
  intros Hc Hcs Ho Hr o. unfold MaxInt64, maxAlloc in *.
  unfold Read. unfold mbind at 1.
  assert (on_file (Seek (int64 o) SeekStart) (openAt path pos b, fs)
          = (Ok o, (openAt path o b, fs))) as ->.
  { unfold on_file, Seek, openAt. cbn [file buffer fname].
    rewrite int64_small by lia.
    destruct (Z.ltb_spec o 0); [lia | reflexivity]. }
  unfold mbind at 1.
  rewrite (on_file_binary_Read_ok path o b fs pre _ 8 (u64 (Z.of_nat (length r))) Hc eq_refl)
    by (rewrite u64_small; lia).
  rewrite u64_small by lia.
  destruct (Z.ltb_spec maxAlloc (Z.of_nat (length r))) as [|_];
    [unfold maxAlloc in *; lia|].
  unfold mbind at 1.
  rewrite (on_file_ReadFull_ok path _ b fs
             (pre ++ be_put 8 (u64 (Z.of_nat (length r)))) r (cs ++ post)).
  2:{ now rewrite <- app_assoc. }
  2:{ rewrite length_app, length_be_put. lia. }
  unfold mbind at 1.
  pose proof (be_get_range cs) as Hrange. rewrite Hcs in Hrange.
  rewrite (on_file_binary_Read_ok path _ b fs
             (pre ++ be_put 8 (u64 (Z.of_nat (length r))) ++ r) post 4
             (be_get cs)).
  2:{ replace (be_put 4 (be_get cs)) with cs
        by (rewrite <- Hcs; now rewrite be_put_get).
      now rewrite <- !app_assoc. }
  2:{ rewrite !length_app, length_be_put. lia. }
  2:{ exact Hrange. }
  destruct (crc32.ChecksumIEEE r =? be_get cs); cbn [negb]; unfold mret, merr.
  - rewrite u64_small by lia. reflexivity.
  - reflexivity.
Qed.

(** Reading where a frame is stored yields its payload and the offset
    behind it. *)
Lemma Read_frame (path : string) (pos : Z) (b : option (list byte)) (fs : FS)
  (pre r post : list byte) :
  file_bytes fs path = pre ++ frame r ++ post ->
  Z.of_nat (length pre) <= MaxInt64 ->
  Z.of_nat (length r) <= maxAlloc ->
  let o := Z.of_nat (length pre) in
  Read o (openAt path pos b, fs)
  = (Ok (r, o + 8 + Z.of_nat (length r) + 4),
     (openAt path (o + 8 + Z.of_nat (length r) + 4) b, fs)).
Proof.
  intros Hc Ho Hr o. unfold frame in Hc. rewrite <- !app_assoc in Hc.
  subst o. rewrite (Read_stored _ _ _ _ _ _ _ _ Hc);
    [|apply length_be_put | assumption ..].
  rewrite be_get_put_small, Z.eqb_refl; [reflexivity|].
  pose proof (ChecksumIEEE_range r). change (256 ^ Z.of_nat 4) with (2 ^ 32). lia.
Qed.

Lemma on_file_Seek_start (fl : FileLog) (fs : FS) (off v : Z) (s' : FileLog * FS) :
  on_file (Seek off SeekStart) (fl, fs) = (Ok v, s') ->
  exists f, file fl = Some f /\ 0 <= off /\ v = off
            /\ s' = (openAt (fname f) off (buffer fl), fs).
Proof.
  unfold on_file, Seek. destruct (file fl) as [f|]; [|discriminate].
  destruct (Z.ltb_spec off 0); [discriminate|].
  intros E. inversion E; subst. exists f. repeat split. lia.
Qed.

Lemma on_file_ReadFull_inv (path : string) (pos : Z) (b : option (list byte))
  (fs : FS) (n : Z) (d : list byte) (s' : FileLog * FS) :
  on_file (ReadFull n) (openAt path pos b, fs) = (Ok d, s') ->
  0 <= n -> 0 <= pos ->
  Z.of_nat (length d) = n
  /\ s' = (openAt path (pos + n) b, fs)
  /\ (exists post, drop (Z.to_nat pos) (file_bytes fs path) = d ++ post)
  /\ (0 < n -> pos + n <= Z.of_nat (length (file_bytes fs path))).
Proof.
  unfold on_file. cbn [openAt file buffer].
  destruct (ReadFull n _) as [r [rcv fs']] eqn:E.
  intros E' Hn Hp. inversion E'; subst; clear E'.
  apply ReadFull_inv in E; [|assumption ..].
  cbn [fname fpos] in E. destruct E as (Hlen & Hs & Hpost & Hsz).
  inversion Hs; subst. repeat split; assumption.
Qed.

(** A read that returns a record has found a frame at the offset. *)
Lemma Read_inv (path : string) (pos : Z) (b : option (list byte)) (fs : FS)
  (o : Z) (r : list byte) (next : Z) (s' : FileLog * FS) :
  0 <= o < 2 ^ 64 ->
  Read o (openAt path pos b, fs) = (Ok (r, next), s') ->
  o <= MaxInt64
  /\ Z.of_nat (length r) <= maxAlloc
  /\ (exists pre post, file_bytes fs path = pre ++ frame r ++ post
                       /\ Z.of_nat (length pre) = o)
  /\ next = o + 8 + Z.of_nat (length r) + 4
  /\ s' = (openAt path next b, fs).
Proof.
  intros Ho E. unfold Read in E. unfold mbind at 1 in E.
  destruct (on_file (Seek _ _) _) as [[v| |] s1] eqn:E1; try discriminate.
  apply on_file_Seek_start in E1. destruct E1 as (f & Hf & Hoff & -> & ->).
  cbn in Hf. inversion Hf; subst f; clear Hf. cbn [fname] in E.
  apply int64_nonneg in Hoff; [|exact Ho]. destruct Hoff as [Ho' Hi].
  rewrite Hi in E.
  unfold mbind at 1 in E.
  destruct (on_file (binary_Read 8) _) as [[len| |] s2] eqn:E2; try discriminate.
  unfold on_file, binary_Read, mbind in E2. cbn [openAt file buffer] in E2.
  destruct (ReadFull (Z.of_nat 8) _) as [[bs| |] [rcv fs2]] eqn:E2'; try discriminate.
  apply ReadFull_inv in E2'; [|cbn; lia ..].
  cbn [fname fpos] in E2'. destruct E2' as (Hbs & Hs2 & [post1 Hpost1] & Hsz1).
  inversion Hs2; subst rcv fs2; clear Hs2.
  unfold mret in E2. inversion E2; subst len s2; clear E2.
  fold (openAt path (o + Z.of_nat 8) b) in E.
  pose proof (be_get_range bs) as Hlen.
  destruct (Z.ltb_spec maxAlloc (be_get bs)) as [|Hmax]; [discriminate|].
  unfold mbind at 1 in E.
  destruct (on_file (ReadFull (be_get bs)) _) as [[payload| |] s3] eqn:E3; try discriminate.
  apply on_file_ReadFull_inv in E3; [|lia ..].
  destruct E3 as (Hrec & -> & [post2 Hpost2] & _).
  unfold mbind at 1 in E.
  destruct (on_file (binary_Read 4) _) as [[sum| |] s4] eqn:E4; try discriminate.
  unfold on_file, binary_Read, mbind in E4. cbn [openAt file buffer] in E4.
  destruct (ReadFull (Z.of_nat 4) _) as [[cs| |] [rcv fs4]] eqn:E4'; try discriminate.
  apply ReadFull_inv in E4'; [|cbn; lia ..].
  cbn [fname fpos] in E4'. destruct E4' as (Hcs & Hs4 & [post3 Hpost3] & _).
  inversion Hs4; subst rcv fs4; clear Hs4.
  unfold mret in E4. inversion E4; subst sum s4; clear E4.
  destruct (Z.eqb_spec (crc32.ChecksumIEEE payload) (be_get cs)) as [Hsum|]; [|discriminate].
  cbn [negb] in E. unfold mret in E. inversion E; subst; clear E.
  unfold size, contents in *. cbn [fname] in *.
  assert (length bs = 8%nat) as Hbs' by lia.
  assert (length cs = 4%nat) as Hcs' by lia.
  rewrite Hbs' in Hlen. change (256 ^ Z.of_nat 8) with (2 ^ 64) in Hlen.
  assert (o + 8 <= Z.of_nat (length (file_bytes fs path))) as Hsz by (apply Hsz1; lia).
  unfold MaxInt64, maxAlloc in *.
  rewrite u64_small by lia.
  split; [lia|]. split; [lia|]. split; [|split; [lia|]].
  2:{ reflexivity. }
  exists (take (Z.to_nat o) (file_bytes fs path)), post3. split.
  2:{ rewrite length_take. lia. }
  rewrite <- (take_drop (Z.to_nat o) (file_bytes fs path)) at 1. f_equal.
  assert (post1 = r ++ post2) as ->.
  { rewrite <- Hpost2.
    replace (Z.to_nat (o + Z.of_nat 8)) with (Z.to_nat o + length bs)%nat by lia.
    now rewrite <- drop_drop, Hpost1, drop_app_length. }
  assert (post2 = cs ++ post3) as ->.
  { rewrite <- Hpost3.
    replace (Z.to_nat (o + Z.of_nat 8 + be_get bs))
      with ((Z.to_nat o + length bs) + length r)%nat by lia.
    now rewrite <- !drop_drop, Hpost1, !drop_app_length. }
  rewrite Hpost1. unfold frame. rewrite <- !app_assoc.
  rewrite u64_small by lia.
  rewrite Hrec. rewrite <- Hbs' at 1.
  rewrite be_put_get, Hsum. rewrite <- Hcs'.
  now rewrite be_put_get.
Qed.

Lemma Read_at_end (path : string) (pos : Z) (b : option (list byte)) (fs : FS)
  (o : Z) :
  Z.of_nat (length (file_bytes fs path)) <= o <= MaxInt64 ->
  Read o (openAt path pos b, fs) = (Err EOF, (openAt path o b, fs)).
Proof.
  intros Ho. unfold MaxInt64 in Ho.
  unfold Read, mbind, on_file, Seek, binary_Read, mbind, ReadFull, remaining,
    size, contents, openAt.
  cbn [file buffer fname fpos].
  rewrite int64_small by lia.
  destruct (Z.ltb_spec o 0); [lia|]. cbn [file buffer fname fpos].
  destruct (Z.leb_spec (Z.of_nat (length (file_bytes fs path))) o); [|lia].
  reflexivity.
Qed.

Lemma length_frames_ge (ps : list (list byte)) :
  (12 * length ps <= length (frames ps))%nat.
Proof.
  induction ps as [|p ps IH]; [cbn; lia|].
  unfold frames in *. cbn [map concat length]. rewrite length_app.
  pose proof (length_frame p). lia.
Qed.

Lemma frames_cons (p : list byte) (ps : list (list byte)) :
  frames (p :: ps) = frame p ++ frames ps.
Proof. reflexivity. Qed.

Lemma frames_app (ps qs : list (list byte)) :
  frames (ps ++ qs) = frames ps ++ frames qs.
Proof. unfold frames. now rewrite map_app, concat_app. Qed.

Section WALProperties.
Context `{Gob}.

(** The loop reads the frames of a file one after the other and leaves
    the rest of the file to the iterations that follow. *)
Lemma readLoop_frames (path : string) (b : option (list byte)) (fs : FS)
  (tail : list byte) (ps : list (list byte)) :
  forall (fuel : nat) (pre : list byte) (data : gmap (list byte) slice) (pos : Z),
    file_bytes fs path = pre ++ frames ps ++ tail ->
    Z.of_nat (length pre + length (frames ps)) <= MaxInt64 ->
    Forall (fun p => Z.of_nat (length p) <= maxAlloc) ps ->
    match replay ps data with
    | Ok data' =>
        exists pos',
          readLoop (length ps + fuel) data (Z.of_nat (length pre)) (openAt path pos b, fs)
          = readLoop fuel data' (Z.of_nat (length pre + length (frames ps)))
              (openAt path pos' b, fs)
    | Err e =>
        exists pos',
          readLoop (length ps + fuel) data (Z.of_nat (length pre)) (openAt path pos b, fs)
          = Some (Err e, (openAt path pos' b, fs))
    | Panic msg =>
        exists pos',
          readLoop (length ps + fuel) data (Z.of_nat (length pre)) (openAt path pos b, fs)
          = Some (Panic msg, (openAt path pos' b, fs))
    end.
Proof.
  induction ps as [|p ps IH]; intros fuel pre data pos Hc Hsz Hall.
  - cbn [replay length Nat.add frames map concat]. exists pos.
    now rewrite Nat.add_0_r.
  - rewrite frames_cons, <- app_assoc in Hc.
    rewrite frames_cons, length_app in Hsz.
    rewrite frames_cons, length_app.
    inversion Hall as [|? ? Hp Hall']; subst.
    pose proof (length_frame p) as Hlf.
    cbn [replay length Nat.add readLoop].
    rewrite (Read_frame path pos b fs pre p (frames ps ++ tail) Hc) by lia.
    destruct (gob_Decode p) as [op|e|msg]; [|eexists; reflexivity ..].
    specialize (IH fuel (pre ++ frame p) (apply_op op data)
                  (Z.of_nat (length pre) + 8 + Z.of_nat (length p) + 4)).
    rewrite length_app in IH.
    replace (Z.of_nat (length pre + length (frame p)))
      with (Z.of_nat (length pre) + 8 + Z.of_nat (length p) + 4) in IH by lia.
    replace (Z.of_nat (length pre + length (frame p) + length (frames ps)))
      with (Z.of_nat (length pre + (length (frame p) + length (frames ps)))) in IH by lia.
    apply IH; [now rewrite <- !app_assoc | lia | assumption].
Qed.

(** The bound on the iterations is never reached. *)
Lemma readLoop_total (fuel : nat) :
  forall (data : gmap (list byte) slice) (o : Z) (fl : FileLog) (fs : FS),
    0 <= o < 2 ^ 64 ->
    (1 <= fuel)%nat ->
    (forall f, file fl = Some f -> size fs f - o < 12 * Z.of_nat fuel) ->
    is_Some (readLoop fuel data o (fl, fs)).
Proof.
  induction fuel as [|fuel IH]; intros data o fl fs Ho Hf Hm; [lia|].
  cbn [readLoop].
  destruct (Read o (fl, fs)) as [[[r next]|e|msg] s'] eqn:E.
  2:{ destruct (decide (e = EOF)); eexists; reflexivity. }
  2:{ eexists; reflexivity. }
  destruct (gob_Decode r) as [op|e|msg]; [|eexists; reflexivity ..].
  destruct fl as [[[path pos]|] b].
  2:{ rewrite Read_closed in E. discriminate. }
  fold (openAt path pos b) in E.
  apply Read_inv in E; [|exact Ho].
  destruct E as (Ho' & Hr & (pre & post & Hc & Hpre) & -> & ->).
  specialize (Hm _ eq_refl). unfold size, contents in Hm. cbn [fname] in Hm.
  rewrite Hc, !length_app in Hm. pose proof (length_frame r) as Hlf.
  unfold MaxInt64, maxAlloc in *.
  apply IH.
  - lia.
  - lia.
  - intros f Hfile. inversion Hfile; subst f.
    unfold size, contents. cbn [fname]. rewrite Hc, !length_app. lia.
Qed.

Lemma readAllLogEntries_readLoop (s : FileLog * FS) :
  readLoop (iterations s) ∅ 0 s = Some (readAllLogEntries s).
Proof.
  unfold readAllLogEntries.
  destruct (readLoop_total (iterations s) ∅ 0 s.1 s.2) as [r Hr].
  - lia.
  - unfold iterations. destruct (file s.1); lia.
  - intros f Hf. unfold iterations. rewrite Hf. unfold size. lia.
  - destruct s as [fl fs]. cbn [fst snd] in Hr. now rewrite Hr.
Qed.

Lemma Read_pos_irrel (path : string) (pos pos' : Z) (b : option (list byte))
  (fs : FS) (o : Z) :
  (Read o (openAt path pos b, fs)).1 = (Read o (openAt path pos' b, fs)).1.
Proof.
  unfold Read. unfold mbind at 1 3.
  unfold on_file at 1 5, Seek, openAt. cbn [file buffer fname].
  destruct (Z.ltb_spec (int64 o) 0); reflexivity.
Qed.

Lemma readAllLogEntries_prefix (path : string) (pos : Z) (b : option (list byte))
  (fs : FS) (ps : list (list byte)) (tail : list byte)
  (data : gmap (list byte) slice) :
  file_bytes fs path = frames ps ++ tail ->
  Z.of_nat (length (frames ps)) <= MaxInt64 ->
  Forall (fun p => Z.of_nat (length p) <= maxAlloc) ps ->
  replay ps ∅ = Ok data ->
  exists pos' k,
    readAllLogEntries (openAt path pos b, fs)
    = match Read (Z.of_nat (length (frames ps))) (openAt path pos' b, fs) with
      | (Err e, s') => if decide (e = EOF) then (Ok data, s') else (Err e, s')
      | (Panic msg, s') => (Panic msg, s')
      | (Ok (record, nextOffset), s') =>
          match gob_Decode record with
          | Err e => (Err e, s')
          | Panic msg => (Panic msg, s')
          | Ok op =>
              default (Panic "unreachable", s')
                (readLoop k (apply_op op data) nextOffset s')
          end
      end.
Proof.
  intros Hc Hsz Hall Hrep.
  pose proof (readAllLogEntries_readLoop (openAt path pos b, fs)) as Hrun.
  pose proof (length_frames_ge ps) as Hge.
  assert (exists k, iterations (openAt path pos b, fs) = (length ps + S k)%nat)
    as [k Hk].
  { unfold iterations, contents. cbn [fst snd openAt file fname].
    rewrite Hc, length_app.
    exists (length (frames ps) + length tail - length ps)%nat. lia. }
  rewrite Hk in Hrun.
  pose proof (readLoop_frames path b fs tail ps (S k) [] ∅ pos Hc Hsz Hall) as Hl.
  rewrite Hrep in Hl. destruct Hl as [pos' Hl].
  cbn [length Nat.add] in Hl. change (Z.of_nat 0) with 0 in Hl.
  rewrite Hl in Hrun. cbn [readLoop] in Hrun.
  exists pos', k.
  destruct (Read _ (openAt path pos' b, fs)) as [[[r next]|e|msg] s'].
  - destruct (gob_Decode r) as [op|e|msg].
    + rewrite Hrun. reflexivity.
    + now inversion Hrun.
    + now inversion Hrun.
  - destruct (decide (e = EOF)); now inversion Hrun.
  - now inversion Hrun.
Qed.

Lemma readAllLogEntries_frames (path : string) (pos : Z) (b : option (list byte))
  (fs : FS) (ps : list (list byte)) :
  file_bytes fs path = frames ps ->
  Z.of_nat (length (frames ps)) <= MaxInt64 ->
  Forall (fun p => Z.of_nat (length p) <= maxAlloc) ps ->
  exists pos',
    readAllLogEntries (openAt path pos b, fs)
    = (replay ps ∅, (openAt path pos' b, fs)).
Proof.
  intros Hc Hsz Hall.
  pose proof (readAllLogEntries_readLoop (openAt path pos b, fs)) as Hrun.
  pose proof (length_frames_ge ps) as Hge.
  assert (exists k, iterations (openAt path pos b, fs) = (length ps + S k)%nat)
    as [k Hk].
  { unfold iterations, contents. cbn [fst snd openAt file fname]. rewrite Hc.
    exists (length (frames ps) - length ps)%nat. lia. }
  rewrite Hk in Hrun.
  pose proof (readLoop_frames path b fs [] ps (S k) [] ∅ pos) as Hl.
  rewrite app_nil_r in Hl. specialize (Hl Hc Hsz Hall).
  cbn [length Nat.add] in Hl. change (Z.of_nat 0) with 0 in Hl.
  destruct (replay ps ∅) as [data|e|msg]; destruct Hl as [pos' Hl];
    rewrite Hl in Hrun.
  - cbn [readLoop] in Hrun.
    rewrite Read_at_end in Hrun by (rewrite Hc; lia).
    cbn in Hrun. inversion Hrun. eauto.
  - inversion Hrun. eauto.
  - inversion Hrun. eauto.
Qed.

Lemma OpenFile_spec (path : string) (fs : FS) :
  exists fs', OpenFile path fs = (Ok (mkFile path 0), fs')
              /\ forall p, file_bytes fs' p = file_bytes fs p.
Proof.
  unfold OpenFile. destruct (fs !! path) as [l|] eqn:E.
  - exists fs. split; reflexivity.
  - exists (<[path := []]> fs). split; [reflexivity|].
    intros p. destruct (decide (path = p)) as [<-|Hne].
    + rewrite file_bytes_insert. unfold file_bytes. now rewrite E.
    + now apply file_bytes_insert_ne.
Qed.

(** Opening a store on a file of frames replays their payloads. *)
Lemma NewWriteAheadLog_frames (path : string) (fs : FS) (ps : list (list byte)) :
  file_bytes fs path = frames ps ->
  Z.of_nat (length (frames ps)) <= MaxInt64 ->
  Forall (fun p => Z.of_nat (length p) <= maxAlloc) ps ->
  exists fs' pos',
    (forall p, file_bytes fs' p = file_bytes fs p)
    /\ NewWriteAheadLog path fs
       = (match replay ps ∅ with
          | Ok data => Ok (mkWriteAheadLog (openAt path pos' None) data)
          | Err e => Err e
          | Panic msg => Panic msg
          end, fs').
Proof.
  intros Hc Hsz Hall.
  destruct (OpenFile_spec path fs) as (fs' & Hopen & Hsame).
  rewrite <- (Hsame path) in Hc.
  destruct (readAllLogEntries_frames path 0 None fs' ps Hc Hsz Hall) as [pos' Hrun].
  exists fs', pos'. split; [exact Hsame|].
  unfold NewWriteAheadLog, NewFileLog, mbind, mret. rewrite Hopen.
  unfold NewWriteAheadLogWithFileLog. fold (openAt path 0 None).
  rewrite Hrun. destruct (replay ps ∅); reflexivity.
Qed.

Lemma exec_open (c : Cmd) (path : string) (pos : Z) (b : option (list byte))
  (m : gmap (list byte) slice) (fs : FS) :
  exec c (mkWriteAheadLog (openAt path pos b) m, fs)
  = match gob_Encode (op_of c) with
    | Ok buf =>
        let old := file_bytes fs path in
        let n := Z.of_nat (length old) in
        if MaxInt64 <? n + Z.of_nat (length (frame buf))
        then (Err EFBIG, (mkWriteAheadLog (openAt path n b) m, fs))
        else (Ok tt,
              (mkWriteAheadLog (openAt path (n + Z.of_nat (length (frame buf))) b)
                 (apply_op (op_of c) m),
               <[path := old ++ frame buf]> fs))
    | Err e => (Err e, (mkWriteAheadLog (openAt path pos b) m, fs))
    | Panic msg => (Panic msg, (mkWriteAheadLog (openAt path pos b) m, fs))
    end.
Proof.
  destruct c as [key value|key]; cbn [exec op_of].
  - unfold Put, mbind, lift.
    destruct (gob_Encode _) as [buf|e|msg]; [|reflexivity ..].
    unfold on_log. cbn [log data]. rewrite Append_open. cbn zeta.
    destruct (_ <? _); reflexivity.
  - unfold Delete, mbind, lift.
    destruct (gob_Encode _) as [buf|e|msg]; [|reflexivity ..].
    unfold on_log. cbn [log data]. rewrite Append_open. cbn zeta.
    destruct (_ <? _); reflexivity.
Qed.


(** A run without error has appended one frame per mutation and applied
    the mutations to the map in the order of the calls. *)
Lemma run_open (cs : list Cmd) :
  forall (path : string) (pos : Z) (b : option (list byte))
    (m : gmap (list byte) slice) (fs : FS) (wal' : WriteAheadLog) (fs' : FS),
    run cs (mkWriteAheadLog (openAt path pos b) m, fs) = (Ok tt, (wal', fs')) ->
    Z.of_nat (length (file_bytes fs path)) <= MaxInt64 ->
    exists bufs pos',
      Forall2 (fun c buf => gob_Encode (op_of c) = Ok buf) cs bufs
      /\ file_bytes fs' path = file_bytes fs path ++ frames bufs
      /\ Z.of_nat (length (file_bytes fs' path)) <= MaxInt64
      /\ wal' = mkWriteAheadLog (openAt path pos' b)
                  (fold_left (fun d c => apply_op (op_of c) d) cs m).
Proof.
  induction cs as [|c cs IH]; intros path pos b m fs wal' fs' Hrun Hsz.
  - cbn in Hrun. inversion Hrun; subst. exists [], pos.
    cbn [frames map concat fold_left]. rewrite app_nil_r. repeat split; [constructor | lia].
  - cbn [run] in Hrun. unfold mbind in Hrun. rewrite exec_open in Hrun.
    destruct (gob_Encode (op_of c)) as [buf|e|msg] eqn:Henc; try discriminate.
    cbn zeta in Hrun.
    destruct (Z.ltb_spec MaxInt64
                (Z.of_nat (length (file_bytes fs path)) + Z.of_nat (length (frame buf))))
      as [|Hfit]; [discriminate|].
    apply IH in Hrun.
    2:{ rewrite file_bytes_insert, length_app. lia. }
    destruct Hrun as (bufs & pos' & Hall & Hc & Hsz' & ->).
    rewrite file_bytes_insert in Hc.
    exists (buf :: bufs), pos'. repeat split.
    + now constructor.
    + now rewrite Hc, frames_cons, app_assoc.
    + exact Hsz'.
Qed.

Lemma string_of_omit_zero (s : slice) : string_of (omit_zero s) = string_of s.
Proof. destruct s as [[|]|]; reflexivity. Qed.

Lemma apply_op_transmitted (op : WriteOperation) (m : gmap (list byte) slice) :
  apply_op (transmitted op) (omit_zero <$> m) = omit_zero <$> apply_op op m.
Proof.
  unfold apply_op, transmitted. cbn [opType Key Value].
  rewrite string_of_omit_zero.
  destruct (opType op =? PUT); [now rewrite fmap_insert|].
  destruct (opType op =? DELETE); [now rewrite fmap_delete|]. reflexivity.
Qed.

(** Replaying the encodings of a run yields the map of the run, with the
    empty values as gob transmits them. *)
Lemma replay_encoded (law : GobLaw) (cs : list Cmd) :
  forall (bufs : list (list byte)) (m : gmap (list byte) slice),
    Forall2 (fun c buf => gob_Encode (op_of c) = Ok buf) cs bufs ->
    replay bufs (omit_zero <$> m)
    = Ok (omit_zero <$> fold_left (fun d c => apply_op (op_of c) d) cs m)
    /\ Forall (fun p => Z.of_nat (length p) <= maxAlloc) bufs.
Proof.
  induction cs as [|c cs IH]; intros bufs m Hall.
  - inversion Hall; subst. split; [reflexivity | constructor].
  - inversion Hall as [|? buf ? bufs' Henc Hall']; subst.
    destruct (law _ _ Henc) as [Hdec Hlen].
    cbn [replay fold_left]. rewrite Hdec, apply_op_transmitted.
    destruct (IH bufs' (apply_op (op_of c) m) Hall') as [Hrep Hsmall].
    split; [exact Hrep | now constructor].
Qed.

End WALProperties.

Lemma on_file_ReadFull_cases (path : string) (pos : Z) (b : option (list byte))
  (fs : FS) (n : Z) :
  exists pos',
    (exists d, on_file (ReadFull n) (openAt path pos b, fs)
               = (Ok d, (openAt path pos' b, fs)))
    \/ on_file (ReadFull n) (openAt path pos b, fs)
       = (Err EOF, (openAt path pos' b, fs))
    \/ on_file (ReadFull n) (openAt path pos b, fs)
       = (Err ErrUnexpectedEOF, (openAt path pos' b, fs)).
Proof.
  unfold on_file, ReadFull, openAt. cbn [file buffer fname fpos].
  destruct (n =? 0); [exists pos; left; eexists; reflexivity|].
  destruct (n <=? _); [eexists; left; eexists; reflexivity|].
  destruct (_ =? 0); [exists pos; right; left; reflexivity|].
  eexists; right; right; reflexivity.
Qed.

Lemma on_file_binary_Read_cases (path : string) (pos : Z) (b : option (list byte))
  (fs : FS) (n : nat) :
  exists pos',
    (exists v, on_file (binary_Read n) (openAt path pos b, fs)
               = (Ok v, (openAt path pos' b, fs)))
    \/ on_file (binary_Read n) (openAt path pos b, fs)
       = (Err EOF, (openAt path pos' b, fs))
    \/ on_file (binary_Read n) (openAt path pos b, fs)
       = (Err ErrUnexpectedEOF, (openAt path pos' b, fs)).
Proof.
  destruct (on_file_ReadFull_cases path pos b fs (Z.of_nat n))
    as (pos' & [[d Hd] | [Hd | Hd]]); exists pos';
    unfold on_file, binary_Read, mbind, mret in *;
    destruct (ReadFull _ _) as [r [rcv fs']]; inversion Hd; subst; eauto.
Qed.

Lemma Read_open_errors (path : string) (pos : Z) (b : option (list byte))
  (fs : FS) (o : Z) :
  match (Read o (openAt path pos b, fs)).1 with
  | Err e => e ∈ read_errors
  | _ => True
  end.
Proof.
  unfold read_errors, Read. unfold mbind at 1.
  unfold on_file at 1, Seek, openAt. cbn [file buffer fname].
  destruct (int64 o <? 0); [cbn; set_solver|].
  change (mkFileLog (Some (mkFile path (int64 o))) b) with (openAt path (int64 o) b).
  unfold mbind at 1.
  destruct (on_file_binary_Read_cases path (int64 o) b fs 8)
    as (p1 & [[len ->] | [-> | ->]]); [|cbn; set_solver ..].
  unfold mbind at 1.
  destruct (maxAlloc <? len); [exact I|].
  destruct (on_file_ReadFull_cases path p1 b fs len)
    as (p2 & [[d ->] | [-> | ->]]); [|cbn; set_solver ..].
  unfold mbind at 1.
  destruct (on_file_binary_Read_cases path p2 b fs 4)
    as (p3 & [[sum ->] | [-> | ->]]); [|cbn; set_solver ..].
  destruct (negb _); cbn; [set_solver | exact I].
Qed.

(* ===================================================================== *)
(** * The record log *)
(* ===================================================================== *)

(** C3. On an open log, [Append(r)] returns the length the file had,
    the file grows by exactly the frame of [r], that is by
    [8 + len(r) + 4] bytes, and [Read] at the returned offset yields [r]
    and the offset [o + 8 + len(r) + 4].  The record is one that fits in
    memory and the grown file one that the file system can hold. *)
Theorem Append_then_Read (fl : FileLog) (f : File) (fs : FS) (r : list byte) :
  file fl = Some f ->
  size fs f + (8 + Z.of_nat (length r) + 4) <= MaxInt64 ->
  Z.of_nat (length r) <= maxAlloc ->
  exists fl1 fs1 fl2,
    Append r (fl, fs) = (Ok (size fs f), (fl1, fs1))
    /\ contents fs1 f = contents fs f ++ frame r
    /\ size fs1 f = size fs f + (8 + Z.of_nat (length r) + 4)
    /\ Read (size fs f) (fl1, fs1)
       = (Ok (r, size fs f + 8 + Z.of_nat (length r) + 4), (fl2, fs1)).
Proof.
  intros Hf Hsz Hr. destruct fl as [rcv b]. cbn in Hf. subst rcv.
  destruct f as [path pos]. fold (openAt path pos b).
  unfold size, contents in *. cbn [fname] in *.
  pose proof (length_frame r) as Hlf.
  rewrite Append_open. cbn zeta.
  destruct (Z.ltb_spec MaxInt64
              (Z.of_nat (length (file_bytes fs path)) + Z.of_nat (length (frame r))));
    [lia|].
  do 3 eexists. split; [reflexivity|].
  rewrite file_bytes_insert. split; [reflexivity|].
  split; [rewrite length_app; lia|].
  rewrite (Read_frame path _ b _ (file_bytes fs path) r []);
    [reflexivity | | lia | assumption].
  now rewrite file_bytes_insert, app_nil_r.
Qed.

Lemma Append_then_Read_witness :
  let fl := openAt "log" 0 None in
  let f := mkFile "log" 0 in
  let fs : FS := {["log" := []]} in
  let r := bytes "hello, world" in
  exists fl1 fs1 fl2,
    Append r (fl, fs) = (Ok (size fs f), (fl1, fs1))
    /\ contents fs1 f = contents fs f ++ frame r
    /\ size fs1 f = size fs f + (8 + Z.of_nat (length r) + 4)
    /\ Read (size fs f) (fl1, fs1)
       = (Ok (r, size fs f + 8 + Z.of_nat (length r) + 4), (fl2, fs1)).
Proof.
  intros fl f fs r. apply (Append_then_Read fl f fs r).
  - reflexivity.
  - vm_compute. discriminate.
  - vm_compute. discriminate.
Defined.

(** C6. After [Close] has returned nil the [file] field is nil; every
    [Append] and every [Read] then returns [os.ErrInvalid], the closed-log
    error, and leaves the log closed and the file system as it is; a second
    [Close] returns nil and changes nothing.  [os.ErrInvalid] tells the
    closed log apart: no call on an open log returns it. *)
Theorem Close_then_closed (fl : FileLog) (fs : FS) (fl' : FileLog) (fs' : FS) :
  Close (fl, fs) = (Ok tt, (fl', fs')) ->
  file fl' = None
  /\ fs' = fs
  /\ (forall record, Append record (fl', fs') = (Err ErrInvalid, (fl', fs')))
  /\ (forall offset, Read offset (fl', fs') = (Err ErrInvalid, (fl', fs')))
  /\ Close (fl', fs') = (Ok tt, (fl', fs'))
  /\ (forall path pos b record offset,
        (Append record (openAt path pos b, fs)).1 <> Err ErrInvalid
        /\ (Read offset (openAt path pos b, fs)).1 <> Err ErrInvalid).
Proof.
  intros Hc. unfold Close in Hc.
  assert (fl' = mkFileLog None (buffer fl) /\ fs' = fs) as [-> ->].
  { destruct fl as [[f|] b]; cbn in Hc; inversion Hc; split; reflexivity. }
  split; [reflexivity|]. split; [reflexivity|].
  split; [intros record; apply Append_closed|].
  split; [intros offset; apply Read_closed|].
  split; [reflexivity|].
  intros path pos b record offset. split.
  - rewrite Append_open. cbn zeta. destruct (_ <? _); discriminate.
  - pose proof (Read_open_errors path pos b fs offset) as Herr.
    intros E. rewrite E in Herr. unfold read_errors in Herr.
    rewrite !elem_of_cons, elem_of_nil in Herr.
    destruct Herr as [?|[?|[?|[?|[]]]]]; discriminate.
Qed.

Lemma Close_then_closed_witness :
  let fl' := mkFileLog None None in
  let fs' : FS := {["log" := []]} in
  file fl' = None
  /\ fs' = {["log" := []]}
  /\ (forall record, Append record (fl', fs') = (Err ErrInvalid, (fl', fs')))
  /\ (forall offset, Read offset (fl', fs') = (Err ErrInvalid, (fl', fs')))
  /\ Close (fl', fs') = (Ok tt, (fl', fs'))
  /\ (forall path pos b record offset,
        (Append record (openAt path pos b, fs')).1 <> Err ErrInvalid
        /\ (Read offset (openAt path pos b, fs')).1 <> Err ErrInvalid).
Proof.
  apply (Close_then_closed (openAt "log" 0 None) {["log" := []]}).
  reflexivity.
Defined.




(** The offsets one before and one after a record of the log that the
    package's test builds are refused. *)
Example Read_one_off_refused :
  let s := (log_of [bytes "hello, world"; bytes "goodbye, world"]).2 in
  (Read (u64 (0 - 1)) s).1 = Err EINVAL
  /\ (Read (0 + 1) s).1 = Err ErrUnexpectedEOF.
Proof. vm_compute. split; reflexivity. Qed.

(** C5, as amended. At an offset at or beyond the end of the file [Read]
    returns [io.EOF], the end-of-stream signal itself; whatever the offset,
    the error of a [Read] on an open log is one of the seek error,
    [io.EOF], [io.ErrUnexpectedEOF] and the corruption error.  Replay, after
    the records it has applied, ends with their map when the next [Read]
    returns [io.EOF] and aborts with the error of that [Read] otherwise. *)
Theorem Read_beyond_end_is_EOF `{Gob} (path : string) (pos : Z)
  (b : option (list byte)) (fs : FS) (ps : list (list byte)) (tail : list byte)
  (data : gmap (list byte) slice) :
  file_bytes fs path = frames ps ++ tail ->
  Z.of_nat (length (frames ps)) <= MaxInt64 ->
  Forall (fun p => Z.of_nat (length p) <= maxAlloc) ps ->
  replay ps ∅ = Ok data ->
  (forall o, Z.of_nat (length (file_bytes fs path)) <= o <= MaxInt64 ->
             (Read o (openAt path pos b, fs)).1 = Err EOF)
  /\ (forall o e, (Read o (openAt path pos b, fs)).1 = Err e -> e ∈ read_errors)
  /\ (forall e,
        (Read (Z.of_nat (length (frames ps))) (openAt path pos b, fs)).1 = Err e ->
        (readAllLogEntries (openAt path pos b, fs)).1
        = if decide (e = EOF) then Ok data else Err e).
Proof.
  intros Hc Hsz Hall Hrep. split; [|split].
  - intros o Ho. now rewrite Read_at_end.
  - intros o e He. pose proof (Read_open_errors path pos b fs o) as Herr.
    now rewrite He in Herr.
  - intros e He.
    destruct (readAllLogEntries_prefix path pos b fs ps tail data Hc Hsz Hall Hrep)
      as (pos' & k & ->).
    rewrite (Read_pos_irrel path pos pos') in He.
    destruct (Read _ (openAt path pos' b, fs)) as [[[r next]|e'|msg] s'];
      cbn in He; try discriminate.
    inversion He; subst e'. destruct (decide (e = EOF)); reflexivity.
Qed.

Lemma Read_beyond_end_is_EOF_witness :
  let G := RefGob in
  let ps := [x00 :: be_put 4 1 ++ bytes "K" ++ bytes "A"] in
  let tail := [x00; x01] in
  let fs : FS := {["log" := frames ps ++ tail]} in
  (forall o, Z.of_nat (length (file_bytes fs "log")) <= o <= MaxInt64 ->
             (Read o (openAt "log" 0 None, fs)).1 = Err EOF)
  /\ (forall o e, (Read o (openAt "log" 0 None, fs)).1 = Err e -> e ∈ read_errors)
  /\ (forall e,
        (Read (Z.of_nat (length (frames ps))) (openAt "log" 0 None, fs)).1 = Err e ->
        (readAllLogEntries (openAt "log" 0 None, fs)).1
        = if decide (e = EOF) then Ok {[bytes "K" := Some (bytes "A")]} else Err e).
Proof.
  intros G ps tail fs.
  apply (@Read_beyond_end_is_EOF G "log" 0 None fs ps tail).
  - vm_compute. reflexivity.
  - vm_compute. discriminate.
  - repeat constructor. vm_compute. discriminate.
  - vm_compute. reflexivity.
Defined.

(** A file that ends two bytes into a record makes the replay fail; a file
    that ends with a whole record makes it end with the map. *)
Example replay_ends_or_aborts :
  let put := x00 :: be_put 4 1 ++ bytes "K" ++ bytes "A" in
  (@readAllLogEntries RefGob
     (openAt "log" 0 None, {["log" := frames [put] ++ [x00; x01]]})).1
  = Err ErrUnexpectedEOF
  /\ (@readAllLogEntries RefGob (openAt "log" 0 None, {["log" := frames [put]]})).1
     = Ok {[bytes "K" := Some (bytes "A")]}.
Proof. cbv zeta. split; vm_refl. Qed.

(** A last record that was cut off behind its payload, or behind its
    length, ends the replay like the end of the log. *)
Example replay_drops_cut_record :
  let put := x00 :: be_put 4 1 ++ bytes "K" ++ bytes "A" in
  (@readAllLogEntries RefGob
     (openAt "log" 0 None,
      {["log" := frames [put] ++ be_put 8 (Z.of_nat (length put)) ++ put]})).1
  = Ok {[bytes "K" := Some (bytes "A")]}
  /\ (@readAllLogEntries RefGob
        (openAt "log" 0 None, {["log" := frames [put] ++ be_put 8 7]})).1
     = Ok {[bytes "K" := Some (bytes "A")]}.
Proof. cbv zeta. split; vm_refl. Qed.

(** C5, the claim as stated fails: on the log that holds the one record
    "hello, world", 24 bytes, offset 12345 is no offset that [Append]
    returned, and [Read(12345)] returns [io.EOF], the very error of the
    [Read] at offset 24, the end of the log. *)
Lemma Read_beyond_end_not_distinct :
  ~ foreign_offset_error_distinct [bytes "hello, world"] 12345.
Proof.
  intros Hclaim.
  destruct (Hclaim [0] (log_of [bytes "hello, world"]).2) as (e & He & _ & Hend).
  - vm_compute. reflexivity.
  - cbn. lia.
  - vm_compute in He. inversion He; subst e.
    apply Hend. vm_compute. reflexivity.
Qed.

(** Inside a record the result of [Read] is what the bytes there happen to
    be: the end-of-stream signal, the corruption error, or a panic. *)
Example Read_inside_record_EOF :
  (Read 8 (log_of [[x00; x00; x00; x01]]).2).1 = Err EOF.
Proof. vm_compute. reflexivity. Qed.

Example Read_inside_record_corruption :
  (Read 8 (log_of [replicate 11 x00 ++ [x01]]).2).1 = Err ErrCorruption.
Proof. vm_compute. reflexivity. Qed.

Example Read_inside_record_panic :
  (Read 16 (log_of [bytes "hello, world"]).2).1
  = Panic "makeslice: len out of range".
Proof. vm_compute. reflexivity. Qed.

(** ** Damage *)

Lemma flip_bit_ne (j : Z) (b : byte) : 0 <= j < 8 -> flip_bit j b <> b.
Proof.
  intros Hj E. apply (f_equal byte_to_Z) in E.
  unfold flip_bit in E. rewrite byte_to_of_Z, Z.shiftl_1_l in E.
  pose proof (byte_to_Z_range b) as Hb.
  assert (0 < 2 ^ j < 2 ^ 8) as Hp.
  { split; [apply Z.pow_pos_nonneg; lia | apply Z.pow_lt_mono_r; lia]. }
  rewrite Z.mod_small in E by (apply (lxor_range 8); lia).
  rewrite <- (Z.lxor_0_r (byte_to_Z b)) in E at 2.
  apply lxor_cancel_l in E. lia.
Qed.

Lemma flip_at_split (l : list byte) (i : nat) (j : Z) :
  (i < length l)%nat ->
  exists u x w, l = u ++ x :: w /\ flip_at i j l = u ++ flip_bit j x :: w.
Proof.
  intros Hi. destruct (lookup_lt_is_Some_2 l i Hi) as [x Hx].
  exists (take i l), x, (drop (S i) l).
  pose proof (take_drop_middle l i x Hx) as Hsplit. split; [now symmetry|].
  unfold flip_at. rewrite <- Hsplit at 1.
  replace i with (length (take i l) + 0)%nat at 1 by (rewrite length_take; lia).
  now rewrite alter_app_r.
Qed.

Lemma length_flip_at (l : list byte) (i : nat) (j : Z) :
  length (flip_at i j l) = length l.
Proof. apply length_alter. Qed.

Lemma flip_at_ne (l : list byte) (i : nat) (j : Z) :
  (i < length l)%nat -> 0 <= j < 8 -> flip_at i j l <> l.
Proof.
  intros Hi Hj. destruct (flip_at_split l i j Hi) as (u & x & w & Hl & ->).
  rewrite Hl. intros E. apply app_inv_head in E. inversion E as [Hx].
  now apply flip_bit_ne in Hx.
Qed.

Lemma ChecksumIEEE_flip_at (r : list byte) (i : nat) (j : Z) :
  (i < length r)%nat -> 0 <= j < 8 ->
  crc32.ChecksumIEEE (flip_at i j r) <> crc32.ChecksumIEEE r.
Proof.
  intros Hi Hj. destruct (flip_at_split r i j Hi) as (u & x & w & Hl & ->).
  rewrite Hl. apply ChecksumIEEE_one_byte. now apply flip_bit_ne.
Qed.

(** C8. For a record stored in an open log, inverting any one bit of its
    payload bytes or of its four checksum bytes in the file makes [Read] at the
    offset of the record return the corruption error; and a [Read] that
    returns a payload has found its CRC-32 in the four bytes stored behind
    it. *)
Theorem bit_flip_detected (path : string) (pos : Z) (b : option (list byte))
  (fs : FS) (pre r post : list byte) (i : nat) (j : Z) :
  file_bytes fs path = pre ++ frame r ++ post ->
  Z.of_nat (length pre) <= MaxInt64 ->
  Z.of_nat (length r) <= maxAlloc ->
  (length pre + 8 <= i < length pre + 8 + length r + 4)%nat ->
  0 <= j < 8 ->
  (Read (Z.of_nat (length pre))
     (openAt path pos b, <[path := flip_at i j (file_bytes fs path)]> fs)).1
  = Err ErrCorruption
  /\ (forall o r' next s',
        0 <= o < 2 ^ 64 ->
        Read o (openAt path pos b, fs) = (Ok (r', next), s') ->
        be_get (take 4 (drop (Z.to_nat o + 8 + length r') (file_bytes fs path)))
        = crc32.ChecksumIEEE r').
Proof.
  intros Hc Ho Hr Hi Hj. split.
  - rewrite Hc. unfold frame.
    set (len8 := be_put 8 (u64 (Z.of_nat (length r)))).
    set (cs := be_put 4 (crc32.ChecksumIEEE r)).
    assert (length len8 = 8%nat) as Hlen8 by apply length_be_put.
    assert (length cs = 4%nat) as Hcs by apply length_be_put.
    assert (be_get cs = crc32.ChecksumIEEE r) as Hsum.
    { subst cs. apply be_get_put_small. pose proof (ChecksumIEEE_range r).
      change (256 ^ Z.of_nat 4) with (2 ^ 32). lia. }
    unfold flip_at. rewrite <- !app_assoc.
    rewrite alter_app_r_alt by lia.
    rewrite alter_app_r_alt by lia.
    rewrite Hlen8.
    destruct (decide (i - length pre - 8 < length r)%nat) as [Hpay|Hsum'].
    + rewrite alter_app_l by exact Hpay.
      fold (flip_at (i - length pre - 8) j r).
      set (r' := flip_at (i - length pre - 8) j r).
      assert (length r' = length r) as Hlr by apply length_flip_at.
      subst len8. rewrite <- Hlr.
      rewrite (Read_stored path pos b _ pre r' cs post);
        [| now rewrite file_bytes_insert | assumption | assumption | lia].
      rewrite Hsum.
      destruct (Z.eqb_spec (crc32.ChecksumIEEE r') (crc32.ChecksumIEEE r)) as [E|];
        [|reflexivity].
      now apply ChecksumIEEE_flip_at in E.
    + rewrite alter_app_r_alt by lia.
      rewrite alter_app_l by lia.
      fold (flip_at (i - length pre - 8 - length r) j cs).
      set (cs' := flip_at (i - length pre - 8 - length r) j cs).
      assert (length cs' = 4%nat) as Hcs' by (subst cs'; now rewrite length_flip_at).
      subst len8.
      rewrite (Read_stored path pos b _ pre r cs' post);
        [| now rewrite file_bytes_insert | assumption | assumption | lia].
      destruct (Z.eqb_spec (crc32.ChecksumIEEE r) (be_get cs')) as [E|];
        [|reflexivity].
      rewrite <- Hsum in E. apply be_get_inj in E; [|lia].
      symmetry in E. apply flip_at_ne in E; [contradiction | lia | exact Hj].
  - intros o r' next s' Ho' E. apply Read_inv in E; [|exact Ho'].
    destruct E as (_ & _ & (pre' & post' & Hc' & Hpre') & _).
    rewrite Hc'. unfold frame. rewrite <- !app_assoc.
    replace (Z.to_nat o + 8 + length r')%nat
      with (length pre' + (length (be_put 8 (u64 (Z.of_nat (length r')))) + (length r' + 0)))%nat
      by (rewrite length_be_put; lia).
    rewrite <- !drop_drop, !drop_app_length, drop_0.
    rewrite (take_app_length' _ _ 4) by (symmetry; apply length_be_put).
    apply be_get_put_small.
    pose proof (ChecksumIEEE_range r'). change (256 ^ Z.of_nat 4) with (2 ^ 32). lia.
Qed.

Lemma bit_flip_detected_witness :
  let r := bytes "hello, world" in
  let fs : FS := {["log" := frame r]} in
  (Read (Z.of_nat (length (@nil byte)))
     (openAt "log" 0 None, <["log" := flip_at 9 3 (file_bytes fs "log")]> fs)).1
  = Err ErrCorruption
  /\ (forall o r' next s',
        0 <= o < 2 ^ 64 ->
        Read o (openAt "log" 0 None, fs) = (Ok (r', next), s') ->
        be_get (take 4 (drop (Z.to_nat o + 8 + length r') (file_bytes fs "log")))
        = crc32.ChecksumIEEE r').
Proof.
  intros r fs.
  apply (bit_flip_detected "log" 0 None fs [] r [] 9 3).
  - vm_compute. reflexivity.
  - vm_compute. discriminate.
  - vm_compute. discriminate.
  - cbn. lia.
  - lia.
Defined.

(* ===================================================================== *)
(** * The reference encoding *)
(* ===================================================================== *)

Lemma nonempty_bytes_of (s : slice) : nonempty (bytes_of s) = omit_zero s.
Proof. destruct s as [[|]|]; reflexivity. Qed.

Lemma RefGob_law : @GobLaw RefGob.
Proof.
  intros op bs E. cbn [gob_Encode gob_Decode RefGob] in *.
  unfold ref_Encode in E.
  destruct (Z.leb_spec 0 (opType op)) as [H0|]; [|discriminate].
  destruct (Z.ltb_spec (opType op) 256) as [H1|]; [|discriminate].
  destruct (Z.ltb_spec (Z.of_nat (length (bytes_of (Key op)))) (2 ^ 32)) as [H2|];
    [|discriminate].
  destruct (Z.leb_spec (Z.of_nat (length (bytes_of (Key op)) + length (bytes_of (Value op))) + 5)
              maxAlloc) as [H3|]; [|discriminate].
  cbn [andb] in E.
  assert (bs = byte_of_Z (opType op)
               :: be_put 4 (Z.of_nat (length (bytes_of (Key op))))
                    ++ bytes_of (Key op) ++ bytes_of (Value op)) as ->
    by congruence.
  clear E. split.
  2:{ cbn [length]. rewrite !length_app, length_be_put. lia. }
  unfold ref_Decode.
  rewrite !length_app, length_be_put.
  destruct (Z.ltb_spec (Z.of_nat (4 + (length (bytes_of (Key op)) + length (bytes_of (Value op))))) 4);
    [lia|].
  rewrite (take_app_length' _ _ 4) by (symmetry; apply length_be_put).
  rewrite (drop_app_length' _ _ 4) by (symmetry; apply length_be_put).
  rewrite be_get_put_small by (change (256 ^ Z.of_nat 4) with (2 ^ 32); lia).
  rewrite length_app.
  destruct (Z.ltb_spec (Z.of_nat (length (bytes_of (Key op)) + length (bytes_of (Value op))))
              (Z.of_nat (length (bytes_of (Key op))))); [lia|].
  rewrite Nat2Z.id, take_app_length, drop_app_length, !nonempty_bytes_of.
  rewrite byte_to_of_Z, Z.mod_small by lia.
  reflexivity.
Qed.

(* ===================================================================== *)
(** * The store *)
(* ===================================================================== *)

Section StoreProperties.
Context `{Gob}.

Lemma apply_op_other (op : WriteOperation) (m : gmap (list byte) slice) :
  opType op <> PUT -> opType op <> DELETE -> apply_op op m = m.
Proof.
  intros Hp Hd. unfold apply_op.
  destruct (Z.eqb_spec (opType op) PUT); [contradiction|].
  destruct (Z.eqb_spec (opType op) DELETE); [contradiction|]. reflexivity.
Qed.

Lemma replay_app (ps qs : list (list byte)) (m : gmap (list byte) slice) :
  replay (ps ++ qs) m
  = match replay ps m with
    | Ok m' => replay qs m'
    | Err e => Err e
    | Panic msg => Panic msg
    end.
Proof.
  revert m. induction ps as [|p ps IH]; intros m; [reflexivity|].
  cbn [app replay]. destruct (gob_Decode p); [apply IH | reflexivity ..].
Qed.



Lemma last_write_snoc (k : list byte) (h : list Cmd) (c : Cmd) :
  last_write k (h ++ [c])
  = if decide (string_of (Key (op_of c)) = k) then Some c else last_write k h.
Proof. unfold last_write. now rewrite fold_left_app. Qed.

(** Last write wins: what the map holds for a key after a history of
    mutations. *)
Lemma lookup_after_history (k : list byte) (h : list Cmd)
  (m : gmap (list byte) slice) :
  default None (fold_left (fun d c => apply_op (op_of c) d) h m !! k)
  = visible k h (default None (m !! k)).
Proof.
  induction h as [|c h IH] using rev_ind; [reflexivity|].
  rewrite fold_left_app. cbn [fold_left]. unfold visible in *.
  rewrite last_write_snoc.
  destruct c as [key value|key]; cbn [op_of Key]; unfold apply_op;
    cbn [opType Key Value]; change (PUT =? PUT) with true;
    change (DELETE =? PUT) with false; change (DELETE =? DELETE) with true;
    cbn match; destruct (decide (string_of key = k)) as [<-|Hne].
  - now rewrite lookup_insert_eq.
  - now rewrite lookup_insert_ne.
  - now rewrite lookup_delete_eq.
  - now rewrite lookup_delete_ne.
Qed.

Lemma lookup_after_history_empty (k : list byte) (h : list Cmd) :
  default None (fold_left (fun d c => apply_op (op_of c) d) h ∅ !! k)
  = visible k h None.
Proof. now rewrite lookup_after_history, lookup_empty. Qed.


(** A store opened on an empty file is empty. *)
Lemma NewWriteAheadLog_empty (path : string) (fs : FS) :
  file_bytes fs path = [] ->
  exists fs' pos,
    (forall p, file_bytes fs' p = file_bytes fs p)
    /\ NewWriteAheadLog path fs = (Ok (mkWriteAheadLog (openAt path pos None) ∅), fs').
Proof.
  intros Hc.
  destruct (NewWriteAheadLog_frames path fs [] Hc) as (fs' & pos & Hsame & Hnew).
  - vm_compute. discriminate.
  - constructor.
  - exists fs', pos. split; [exact Hsame | exact Hnew].
Qed.

End StoreProperties.

(** C7. [Put] and [Delete] change the map only after [Append] has returned
    nil: when [Append] returns an error the map is left as it was and that
    error is returned; when it returns nil, [Put] has set the key to the
    value and [Delete] has removed the key.  A [Delete] of a key that the map
    does not hold, on an open log with room for the record, returns nil,
    leaves the map as it was and has appended its record all the same. *)
Theorem mutation_after_append `{Gob} (wal : WriteAheadLog) (fs : FS)
  (key value : slice) (pbuf dbuf : list byte) :
  gob_Encode (mkWriteOperation PUT key value) = Ok pbuf ->
  gob_Encode (mkWriteOperation DELETE key None) = Ok dbuf ->
  match Append pbuf (log wal, fs) with
  | (Ok _, (fl', fs')) =>
      Put key value (wal, fs)
      = (Ok tt, (mkWriteAheadLog fl' (<[string_of key := value]> (data wal)), fs'))
  | (Err e, (fl', fs')) =>
      Put key value (wal, fs) = (Err e, (mkWriteAheadLog fl' (data wal), fs'))
  | (Panic msg, (fl', fs')) =>
      Put key value (wal, fs) = (Panic msg, (mkWriteAheadLog fl' (data wal), fs'))
  end
  /\ match Append dbuf (log wal, fs) with
     | (Ok _, (fl', fs')) =>
         Delete key (wal, fs)
         = (Ok tt, (mkWriteAheadLog fl' (delete (string_of key) (data wal)), fs'))
     | (Err e, (fl', fs')) =>
         Delete key (wal, fs) = (Err e, (mkWriteAheadLog fl' (data wal), fs'))
     | (Panic msg, (fl', fs')) =>
         Delete key (wal, fs) = (Panic msg, (mkWriteAheadLog fl' (data wal), fs'))
     end
  /\ (forall f,
        file (log wal) = Some f ->
        size fs f + Z.of_nat (length (frame dbuf)) <= MaxInt64 ->
        data wal !! string_of key = None ->
        exists fl' fs',
          Delete key (wal, fs) = (Ok tt, (mkWriteAheadLog fl' (data wal), fs'))
          /\ contents fs' f = contents fs f ++ frame dbuf).
Proof.
  intros Hp Hd. split; [|split].
  - unfold Put, mbind, lift, on_log. rewrite Hp.
    destruct (Append pbuf (log wal, fs)) as [[o|e|msg] [fl' fs']]; reflexivity.
  - unfold Delete, mbind, lift, on_log. rewrite Hd.
    destruct (Append dbuf (log wal, fs)) as [[o|e|msg] [fl' fs']]; reflexivity.
  - intros f Hf Hsz Habsent.
    destruct wal as [[rcv b] m]. cbn [log file data] in *. subst rcv.
    destruct f as [path pos]. unfold size, contents in *. cbn [fname] in *.
    unfold Delete, mbind, lift, on_log. rewrite Hd. cbn [log data].
    fold (openAt path pos b). rewrite Append_open. cbn zeta.
    destruct (Z.ltb_spec MaxInt64
                (Z.of_nat (length (file_bytes fs path)) + Z.of_nat (length (frame dbuf))));
      [lia|].
    do 2 eexists. cbn [log data]. rewrite (delete_id m) by exact Habsent.
    split; [reflexivity|]. now rewrite file_bytes_insert.
Qed.

Lemma mutation_after_append_witness :
  let G := RefGob in
  let wal := mkWriteAheadLog (openAt "log" 0 None) ∅ in
  let fs : FS := {["log" := []]} in
  let key : slice := Some (bytes "Key") in
  let value : slice := Some (bytes "Value") in
  let pbuf := x00 :: be_put 4 3 ++ bytes "Key" ++ bytes "Value" in
  let dbuf := x01 :: be_put 4 3 ++ bytes "Key" in
  match Append pbuf (log wal, fs) with
  | (Ok _, (fl', fs')) =>
      Put key value (wal, fs)
      = (Ok tt, (mkWriteAheadLog fl' (<[string_of key := value]> (data wal)), fs'))
  | (Err e, (fl', fs')) =>
      Put key value (wal, fs) = (Err e, (mkWriteAheadLog fl' (data wal), fs'))
  | (Panic msg, (fl', fs')) =>
      Put key value (wal, fs) = (Panic msg, (mkWriteAheadLog fl' (data wal), fs'))
  end
  /\ match Append dbuf (log wal, fs) with
     | (Ok _, (fl', fs')) =>
         Delete key (wal, fs)
         = (Ok tt, (mkWriteAheadLog fl' (delete (string_of key) (data wal)), fs'))
     | (Err e, (fl', fs')) =>
         Delete key (wal, fs) = (Err e, (mkWriteAheadLog fl' (data wal), fs'))
     | (Panic msg, (fl', fs')) =>
         Delete key (wal, fs) = (Panic msg, (mkWriteAheadLog fl' (data wal), fs'))
     end
  /\ (forall f,
        file (log wal) = Some f ->
        size fs f + Z.of_nat (length (frame dbuf)) <= MaxInt64 ->
        data wal !! string_of key = None ->
        exists fl' fs',
          Delete key (wal, fs) = (Ok tt, (mkWriteAheadLog fl' (data wal), fs'))
          /\ contents fs' f = contents fs f ++ frame dbuf).
Proof.
  intros G wal fs key value pbuf dbuf.
  apply (@mutation_after_append G wal fs key value pbuf dbuf).
  - vm_compute. reflexivity.
  - vm_compute. reflexivity.
Defined.

(** On a closed log the append fails: the error comes back and the map
    keeps what it held. *)
Example Put_on_closed_log :
  let wal := mkWriteAheadLog (mkFileLog None None) {[bytes "Key" := Some (bytes "Old")]} in
  let r := @Put RefGob (Some (bytes "Key")) (Some (bytes "New")) (wal, ∅) in
  r.1 = Err ErrInvalid /\ data r.2.1 = data wal
  /\ (@Delete RefGob (Some (bytes "Key")) (wal, ∅)).1 = Err ErrInvalid
  /\ data (@Delete RefGob (Some (bytes "Key")) (wal, ∅)).2.1 = data wal.
Proof. cbv zeta. split; [|split; [|split]]; vm_refl. Qed.

(** C9. A [Put] or a [Delete] of a key leaves what [Get] returns for every
    key of other bytes as it was, whether the call returns nil or not. *)
Theorem other_keys_unchanged `{Gob} (wal : WriteAheadLog) (fs : FS)
  (key value key' : slice) :
  string_of key <> string_of key' ->
  Get (Put key value (wal, fs)).2.1 key' = Get wal key'
  /\ Get (Delete key (wal, fs)).2.1 key' = Get wal key'.
Proof.
  intros Hne. split.
  - unfold Put, mbind, lift, on_log.
    destruct (gob_Encode _); [|reflexivity ..].
    destruct (Append _ _) as [[o|e|msg] [fl' fs']]; [|reflexivity ..].
    unfold Get. cbn [snd fst data]. now rewrite lookup_insert_ne.
  - unfold Delete, mbind, lift, on_log.
    destruct (gob_Encode _); [|reflexivity ..].
    destruct (Append _ _) as [[o|e|msg] [fl' fs']]; [|reflexivity ..].
    unfold Get. cbn [snd fst data]. now rewrite lookup_delete_ne.
Qed.

Lemma other_keys_unchanged_witness :
  let G := RefGob in
  let wal := mkWriteAheadLog (openAt "log" 0 None) {[bytes "b" := Some (bytes "1")]} in
  let fs : FS := {["log" := []]} in
  let key : slice := Some (bytes "a") in
  let value : slice := Some (bytes "2") in
  let key' : slice := Some (bytes "b") in
  Get (Put key value (wal, fs)).2.1 key' = Get wal key'
  /\ Get (Delete key (wal, fs)).2.1 key' = Get wal key'.
Proof.
  intros G wal fs key value key'.
  apply (@other_keys_unchanged G wal fs key value key').
  vm_compute. discriminate.
Defined.



(** The tests of the package: a value that was put is returned, a key that
    was deleted or never written yields nil, with a nil error. *)
Example Get_after_Put_and_Delete :
  match @NewWriteAheadLog RefGob "log" ∅ with
  | (Ok wal0, fs0) =>
      let put := [CPut (Some (bytes "Key")) (Some (bytes "Value"))] in
      Get (@attempt RefGob put (wal0, fs0)).2.1 (Some (bytes "Key"))
      = (Some (bytes "Value"), None)
      /\ Get (@attempt RefGob (put ++ [CDelete (Some (bytes "Key"))]) (wal0, fs0)).2.1
           (Some (bytes "Key"))
         = (None, None)
      /\ Get wal0 (Some (bytes "nonexistent")) = (None, None)
  | _ => False
  end.
Proof. vm_compute. repeat split; reflexivity. Qed.

(** C10. During the replay of a file of well-framed records, a record whose
    payload decodes to an operation of a type that is neither [PUT] nor
    [DELETE] is passed over: opening the store yields what it yields on the
    file without that record, the same map or the same error of another
    record.  A record whose payload does not decode, behind records that
    were applied, makes opening the store fail with the error of the
    decoder. *)
Theorem replay_skips_unknown_type `{Gob} (path : string) (fs fs' : FS)
  (ps1 ps2 : list (list byte)) (p : list byte) :
  file_bytes fs path = frames (ps1 ++ p :: ps2) ->
  file_bytes fs' path = frames (ps1 ++ ps2) ->
  Z.of_nat (length (frames (ps1 ++ p :: ps2))) <= MaxInt64 ->
  Forall (fun q => Z.of_nat (length q) <= maxAlloc) (ps1 ++ p :: ps2) ->
  (forall op,
     gob_Decode p = Ok op -> opType op <> PUT -> opType op <> DELETE ->
     recovered (NewWriteAheadLog path fs).1 = recovered (NewWriteAheadLog path fs').1)
  /\ (forall e m,
        replay ps1 ∅ = Ok m -> gob_Decode p = Err e ->
        (NewWriteAheadLog path fs).1 = Err e).
Proof.
  intros Hc Hc' Hsz Hall.
  destruct (NewWriteAheadLog_frames path fs _ Hc Hsz Hall) as (fs1 & pos1 & _ & Hnew).
  assert (Forall (fun q => Z.of_nat (length q) <= maxAlloc) (ps1 ++ ps2)) as Hall'.
  { apply Forall_app in Hall as [H1 H2]. apply Forall_app. split; [exact H1|].
    now inversion H2. }
  assert (Z.of_nat (length (frames (ps1 ++ ps2))) <= MaxInt64) as Hsz'.
  { rewrite frames_app, length_app in *. rewrite frames_cons, length_app in Hsz. lia. }
  destruct (NewWriteAheadLog_frames path fs' _ Hc' Hsz' Hall') as (fs2 & pos2 & _ & Hnew').
  rewrite Hnew, Hnew'. cbn [fst]. rewrite !replay_app. split.
  - intros op Hdec Hp Hd.
    destruct (replay ps1 ∅) as [m|e|msg]; [|reflexivity ..].
    cbn [replay]. rewrite Hdec, apply_op_other by assumption.
    destruct (replay ps2 m); reflexivity.
  - intros e m Hrep Hdec. rewrite Hrep. cbn [replay]. now rewrite Hdec.
Qed.

Lemma replay_skips_unknown_type_witness :
  let G := RefGob in
  let ps1 := [x00 :: be_put 4 1 ++ bytes "K" ++ bytes "A"] in
  let p := x02 :: be_put 4 1 ++ bytes "K" ++ bytes "X" in
  let ps2 := [x00 :: be_put 4 1 ++ bytes "L" ++ bytes "B"] in
  let fs : FS := {["log" := frames (ps1 ++ p :: ps2)]} in
  let fs' : FS := {["log" := frames (ps1 ++ ps2)]} in
  (forall op,
     gob_Decode p = Ok op -> opType op <> PUT -> opType op <> DELETE ->
     recovered (NewWriteAheadLog "log" fs).1 = recovered (NewWriteAheadLog "log" fs').1)
  /\ (forall e m,
        replay ps1 ∅ = Ok m -> gob_Decode p = Err e ->
        (NewWriteAheadLog "log" fs).1 = Err e).
Proof.
  intros G ps1 p ps2 fs fs'.
  apply (@replay_skips_unknown_type G "log" fs fs' ps1 ps2 p).
  - vm_compute. reflexivity.
  - vm_compute. reflexivity.
  - vm_compute. discriminate.
  - repeat constructor; vm_compute; discriminate.
Defined.

(** A record of type 2 between two [PUT] records leaves the map of the two;
    a payload that does not decode makes the store refuse to open. *)
Example replay_unknown_type_and_garbage :
  let put k v := x00 :: be_put 4 1 ++ bytes k ++ bytes v in
  let other := x02 :: be_put 4 1 ++ bytes "K" ++ bytes "X" in
  recovered (@NewWriteAheadLog RefGob "log"
               {["log" := frames [put "K" "A"; other; put "L" "B"]]}).1
  = Ok {[bytes "K" := Some (bytes "A"); bytes "L" := Some (bytes "B")]}
  /\ recovered (@NewWriteAheadLog RefGob "log"
                  {["log" := frames [put "K" "A"; [x00; x01]; put "L" "B"]]}).1
     = Err ErrUnexpectedEOF.
Proof. cbv zeta. split; vm_refl. Qed.

Section Durability.
Context `{Gob}.
Hypothesis law : GobLaw.

(** What a store that is opened again holds: the map of the store that
    wrote the file, with the empty values as gob transmits them. *)
Lemma session_reopen (path : string) (fs : FS) (cs : list Cmd)
  (wal : WriteAheadLog) (fs1 : FS) :
  file_bytes fs path = [] ->
  session path cs fs = (Ok wal, fs1) ->
  exists wal' fs2,
    reopen path wal fs1 = (Ok wal', fs2)
    /\ data wal = fold_left (fun d c => apply_op (op_of c) d) cs ∅
    /\ data wal' = omit_zero <$> data wal.
Proof.
  intros Hc Hs. unfold session in Hs.
  destruct (NewWriteAheadLog_empty path fs Hc) as (fs0 & pos & Hsame & Hnew).
  rewrite Hnew in Hs.
  destruct (run cs _) as [[[]|e|msg] [wal1 fs1']] eqn:Hrun; inversion Hs; subst.
  apply run_open in Hrun; [|rewrite Hsame, Hc; vm_compute; discriminate].
  destruct Hrun as (bufs & pos' & Hall & Hc1 & Hsz & ->).
  rewrite Hsame, Hc in Hc1. cbn [app] in Hc1.
  destruct (replay_encoded law cs bufs ∅ Hall) as [Hrep Hsmall].
  rewrite fmap_empty in Hrep.
  destruct (NewWriteAheadLog_frames path fs1 bufs Hc1) as (fs2 & pos2 & _ & Hnew2);
    [now rewrite <- Hc1 | exact Hsmall |].
  rewrite Hrep in Hnew2.
  unfold reopen, Close. cbn [log openAt file]. rewrite Hnew2.
  do 2 eexists. split; [reflexivity|]. split; reflexivity.
Qed.

End Durability.

(** X13. What a reopen keeps. After mutations that all returned nil on a store
    opened on an empty file, closing the log and opening the store on the
    same path succeeds; [Get] on the store that wrote the file returns the
    value of the most recent mutation of the key in the order of the calls,
    and the store that is opened again returns the same bytes, and the very
    same result wherever the first store did not return the empty slice
    [[]byte{}]. *)
Theorem reopen_restores `{Gob} (law : GobLaw) (path : string) (fs : FS)
  (cs : list Cmd) (wal : WriteAheadLog) (fs1 : FS) :
  file_bytes fs path = [] ->
  session path cs fs = (Ok wal, fs1) ->
  exists wal' fs2,
    reopen path wal fs1 = (Ok wal', fs2)
    /\ forall key,
         Get wal key = (visible (string_of key) cs None, None)
         /\ bytes_of (Get wal' key).1 = bytes_of (Get wal key).1
         /\ ((Get wal key).1 <> Some [] -> Get wal' key = Get wal key).
Proof.
  intros Hc Hs.
  destruct (session_reopen law path fs cs wal fs1 Hc Hs) as (wal' & fs2 & Hre & Hd & Hd').
  exists wal', fs2. split; [exact Hre|]. intros key.
  assert (Get wal key = (visible (string_of key) cs None, None)) as Hget.
  { unfold Get. now rewrite Hd, lookup_after_history_empty. }
  assert (Get wal' key = (omit_zero (visible (string_of key) cs None), None)) as Hget'.
  { unfold Get. rewrite Hd', lookup_fmap, Hd.
    rewrite <- lookup_after_history_empty.
    now destruct (fold_left _ cs ∅ !! string_of key). }
  rewrite Hget, Hget'. cbn [fst]. repeat split.
  - now destruct (visible (string_of key) cs None) as [[|]|].
  - intros Hne. destruct (visible (string_of key) cs None) as [[|]|];
      [contradiction | reflexivity ..].
Qed.

(** The order of the replay: "K" is put as "A", put as "B", deleted and put
    as "C"; the store that is opened again returns "C". *)
Lemma reopen_restores_witness :
  let G := RefGob in
  let K : slice := Some (bytes "K") in
  let cs := [CPut K (Some (bytes "A")); CPut K (Some (bytes "B"));
             CDelete K; CPut K (Some (bytes "C"))] in
  let wal := match (session "log" cs ∅).1 with
             | Ok wal => wal
             | _ => mkWriteAheadLog (mkFileLog None None) ∅
             end in
  let fs1 := (session "log" cs ∅).2 in
  exists wal' fs2,
    reopen "log" wal fs1 = (Ok wal', fs2)
    /\ forall key,
         Get wal key = (visible (string_of key) cs None, None)
         /\ bytes_of (Get wal' key).1 = bytes_of (Get wal key).1
         /\ ((Get wal key).1 <> Some [] -> Get wal' key = Get wal key).
Proof.
  intros G K cs wal fs1.
  apply (@reopen_restores G RefGob_law "log" ∅ cs wal fs1).
  - reflexivity.
  - vm_compute. reflexivity.
Defined.

Example reopen_after_put_put_delete_put :
  let K : slice := Some (bytes "K") in
  let cs := [CPut K (Some (bytes "A")); CPut K (Some (bytes "B"));
             CDelete K; CPut K (Some (bytes "C"))] in
  match @session RefGob "log" cs ∅ with
  | (Ok wal, fs1) =>
      match @reopen RefGob "log" wal fs1 with
      | (Ok wal', _) => Get wal' K = (Some (bytes "C"), None)
      | _ => False
      end
  | _ => False
  end.
Proof. vm_compute. reflexivity. Qed.

(** The statement that a reopen returns the very results of [Get] fails on
    the code: a key that is put with the empty slice [[]byte{}] is returned
    as that slice by the store that wrote it and as nil by the store that is
    opened again. *)
Lemma reopen_loses_empty_slice :
  ~ @reopen_same_results RefGob "log" [CPut (Some (bytes "K")) (Some [])].
Proof.
  intros Hclaim.
  destruct (Hclaim ∅
              (match (@session RefGob "log" [CPut (Some (bytes "K")) (Some [])] ∅).1 with
               | Ok wal => wal
               | _ => mkWriteAheadLog (mkFileLog None None) ∅
               end)
              (@session RefGob "log" [CPut (Some (bytes "K")) (Some [])] ∅).2)
    as (wal' & fs2 & Hre & Hget).
  - reflexivity.
  - vm_compute. reflexivity.
  - specialize (Hget (Some (bytes "K"))).
    vm_compute in Hre. inversion Hre; subst wal'.
    vm_compute in Hget. discriminate.
Qed.

(** C1, the code at the failing input. [Put(k, []byte{})] on a store opened
    on an empty file, with any encoder that keeps the contract of gob: the
    store that wrote the record returns the empty slice for [k], and after
    [Close] and [NewWriteAheadLog] on the same path, which succeeds, the new
    store returns nil for [k].  [Put] writes the caller's [value] to the
    map, the replay writes the decoded [op.Value], and gob does not transmit
    a field of length zero; the test of the reopen expects the value to be
    the same as before. *)
Theorem reopen_empty_slice_is_nil `{Gob} (law : GobLaw) (path : string) (fs : FS)
  (k : slice) (wal : WriteAheadLog) (fs1 : FS) :
  file_bytes fs path = [] ->
  session path [CPut k (Some [])] fs = (Ok wal, fs1) ->
  exists wal' fs2,
    reopen path wal fs1 = (Ok wal', fs2)
    /\ Get wal k = (Some [], None)
    /\ Get wal' k = (None, None).
Proof.
  intros Hc Hs.
  destruct (session_reopen law path fs _ wal fs1 Hc Hs) as (wal' & fs2 & Hre & Hd & Hd').
  exists wal', fs2. split; [exact Hre|].
  unfold Get. rewrite Hd', Hd. cbn [fold_left op_of]. unfold apply_op.
  cbn [opType Key Value]. change (PUT =? PUT) with true. cbn match.
  rewrite lookup_fmap, !lookup_insert_eq. split; reflexivity.
Qed.

(** The key "K" on the path "log" of an empty file system. *)
Lemma reopen_empty_slice_is_nil_witness :
  let G := RefGob in
  let K : slice := Some (bytes "K") in
  let wal := match (session "log" [CPut K (Some [])] ∅).1 with
             | Ok wal => wal
             | _ => mkWriteAheadLog (mkFileLog None None) ∅
             end in
  let fs1 := (session "log" [CPut K (Some [])] ∅).2 in
  exists wal' fs2,
    reopen "log" wal fs1 = (Ok wal', fs2)
    /\ Get wal K = (Some [], None)
    /\ Get wal' K = (None, None).
Proof.
  intros G K wal fs1.
  apply (@reopen_empty_slice_is_nil G RefGob_law "log" ∅ K wal fs1).
  - reflexivity.
  - vm_compute. reflexivity.
Defined.

(* ===================================================================== *)
(** * Further properties: sequences of records, recovery from damaged files *)
(* ===================================================================== *)

(** ** Helper lemmas *)

Lemma append_all_open (rs : list (list byte)) :
  forall (path : string) (pos : Z) (b : option (list byte)) (fs : FS),
    Z.of_nat (length (file_bytes fs path ++ frames rs)) <= MaxInt64 ->
    exists pos' fs',
      append_all rs (openAt path pos b, fs)
      = (Ok (offsets_from (Z.of_nat (length (file_bytes fs path))) rs),
         (openAt path pos' b, fs'))
      /\ file_bytes fs' path = file_bytes fs path ++ frames rs
      /\ forall p, p <> path -> file_bytes fs' p = file_bytes fs p.
Proof.
  induction rs as [|r rs IH]; intros path pos b fs Hsz.
  - exists pos, fs. cbn [append_all offsets_from frames map concat].
    rewrite app_nil_r. repeat split.
  - cbn [append_all offsets_from]. unfold mbind at 1.
    rewrite Append_open. cbn zeta.
    rewrite frames_cons, !length_app in Hsz.
    destruct (Z.ltb_spec MaxInt64
                (Z.of_nat (length (file_bytes fs path)) + Z.of_nat (length (frame r))));
      [lia|].
    destruct (IH path (Z.of_nat (length (file_bytes fs path)) + Z.of_nat (length (frame r)))
                b (<[path := file_bytes fs path ++ frame r]> fs))
      as (pos' & fs' & Hrun & Hc & Hother).
    { rewrite file_bytes_insert, !length_app. lia. }
    rewrite file_bytes_insert in Hrun, Hc.
    exists pos', fs'. unfold mbind at 1.
    rewrite length_app, Nat2Z.inj_add in Hrun. rewrite Hrun.
    split; [reflexivity|]. split.
    + now rewrite Hc, frames_cons, app_assoc.
    + intros p Hp. rewrite Hother by exact Hp.
      apply file_bytes_insert_ne. congruence.
Qed.

Lemma offsets_from_lookup (rs : list (list byte)) :
  forall (start : Z) (i : nat) (r : list byte),
    rs !! i = Some r ->
    offsets_from start rs !! i
    = Some (start + Z.of_nat (length (frames (take i rs))))
    /\ default (start + Z.of_nat (length (frames rs))) (offsets_from start rs !! S i)
       = start + Z.of_nat (length (frames (take i rs))) + Z.of_nat (length (frame r)).
Proof.
  induction rs as [|q rs IH]; intros start i r Hi; [discriminate|].
  destruct i as [|i].
  - cbn in Hi. inversion Hi; subst q. cbn [offsets_from take frames map concat length].
    split; [cbn; f_equal; lia|].
    change (offsets_from start (r :: rs) !! 1%nat)
      with (offsets_from (start + Z.of_nat (length (frame r))) rs !! 0%nat).
    rewrite Z.add_0_r. fold (frames rs). rewrite length_app.
    destruct rs as [|r' rs]; cbn; lia.
  - cbn in Hi. destruct (IH (start + Z.of_nat (length (frame q))) i r Hi) as [H1 H2].
    cbn [offsets_from take]. rewrite !frames_cons, !length_app.
    change ((start :: ?l) !! S ?j) with (l !! j).
    split.
    + cbn [lookup list_lookup]. rewrite H1. f_equal. lia.
    + change ((start :: offsets_from (start + Z.of_nat (length (frame q))) rs) !! S (S i))
        with (offsets_from (start + Z.of_nat (length (frame q))) rs !! S i).
      replace (start + Z.of_nat (length (frame q) + length (frames rs)))
        with (start + Z.of_nat (length (frame q)) + Z.of_nat (length (frames rs))) by lia.
      rewrite H2. lia.
Qed.

(** Reading at the offset of the [i]-th frame of a file. *)
Lemma Read_offsets_from (path : string) (pos : Z) (b : option (list byte)) (fs : FS)
  (old : list byte) (rs : list (list byte)) (i : nat) (r : list byte) (o : Z) :
  file_bytes fs path = old ++ frames rs ->
  Z.of_nat (length (old ++ frames rs)) <= MaxInt64 ->
  Forall (fun q => Z.of_nat (length q) <= maxAlloc) rs ->
  rs !! i = Some r ->
  offsets_from (Z.of_nat (length old)) rs !! i = Some o ->
  (Read o (openAt path pos b, fs)).1
  = Ok (r, default (Z.of_nat (length (file_bytes fs path)))
             (offsets_from (Z.of_nat (length old)) rs !! S i)).
Proof.
  intros Hc Hsz Hall Hi Ho.
  destruct (offsets_from_lookup rs (Z.of_nat (length old)) i r Hi) as [H1 H2].
  rewrite H1 in Ho. inversion Ho; subst o; clear Ho.
  rewrite Hc, length_app, Nat2Z.inj_add, H2.
  pose proof (take_drop_middle rs i r Hi) as Hsplit.
  assert (file_bytes fs path
          = (old ++ frames (take i rs)) ++ frame r ++ frames (drop (S i) rs)) as Hc'.
  { rewrite Hc. rewrite <- Hsplit at 1.
    now rewrite frames_app, frames_cons, <- app_assoc. }
  assert (Z.of_nat (length (old ++ frames (take i rs))) <= MaxInt64) as Hpre.
  { rewrite <- Hsplit in Hsz. rewrite frames_app, !length_app in Hsz.
    rewrite length_app. lia. }
  assert (Z.of_nat (length r) <= maxAlloc) as Hr.
  { exact (Forall_lookup_1 _ _ _ _ Hall Hi). }
  pose proof (Read_frame path pos b fs _ r _ Hc' Hpre Hr) as HR. cbn zeta in HR.
  rewrite length_app, Nat2Z.inj_add in HR. rewrite HR. cbn [fst].
  pose proof (length_frame r). do 2 f_equal. lia.
Qed.

(** A read leaves the file system as it is and the log open on its path. *)
Lemma Read_open_state (path : string) (pos : Z) (b : option (list byte))
  (fs : FS) (o : Z) :
  exists pos', (Read o (openAt path pos b, fs)).2 = (openAt path pos' b, fs).
Proof.
  unfold Read. unfold mbind at 1.
  unfold on_file at 1, Seek, openAt. cbn [file buffer fname].
  destruct (int64 o <? 0); [eexists; reflexivity|].
  change (mkFileLog (Some (mkFile path (int64 o))) b) with (openAt path (int64 o) b).
  unfold mbind at 1.
  destruct (on_file_binary_Read_cases path (int64 o) b fs 8)
    as (p1 & [[len ->] | [-> | ->]]); [|eexists; reflexivity ..].
  unfold mbind at 1.
  destruct (maxAlloc <? len); [eexists; reflexivity|].
  destruct (on_file_ReadFull_cases path p1 b fs len)
    as (p2 & [[d ->] | [-> | ->]]); [|eexists; reflexivity ..].
  unfold mbind at 1.
  destruct (on_file_binary_Read_cases path p2 b fs 4)
    as (p3 & [[sum ->] | [-> | ->]]); [|eexists; reflexivity ..].
  destruct (negb _); eexists; reflexivity.
Qed.

Section ReplayState.
Context `{Gob}.

Lemma readLoop_state (path : string) (b : option (list byte)) (fs : FS)
  (fuel : nat) :
  forall (data : gmap (list byte) slice) (o pos : Z) r s',
    readLoop fuel data o (openAt path pos b, fs) = Some (r, s') ->
    exists pos', s' = (openAt path pos' b, fs).
Proof.
  induction fuel as [|fuel IH]; intros data o pos r s' E; [discriminate|].
  cbn [readLoop] in E.
  destruct (Read_open_state path pos b fs o) as [pos1 Hs].
  destruct (Read o (openAt path pos b, fs)) as [[[record next]|e|msg] s1].
  - cbn [snd] in Hs. subst s1.
    destruct (gob_Decode record) as [op|e|msg].
    + eapply IH, E.
    + inversion E; subst. eauto.
    + inversion E; subst. eauto.
  - cbn [snd] in Hs. subst s1.
    destruct (decide (e = EOF)); inversion E; subst; eauto.
  - cbn [snd] in Hs. subst s1. inversion E; subst. eauto.
Qed.

Lemma readAllLogEntries_state (path : string) (pos : Z) (b : option (list byte))
  (fs : FS) :
  exists pos', (readAllLogEntries (openAt path pos b, fs)).2 = (openAt path pos' b, fs).
Proof.
  pose proof (readAllLogEntries_readLoop (openAt path pos b, fs)) as Hrun.
  destruct (readAllLogEntries _) as [r s']. cbn [snd].
  eapply readLoop_state, Hrun.
Qed.

Lemma NewWriteAheadLogWithFileLog_fs (path : string) (pos : Z)
  (b : option (list byte)) (fs : FS) :
  (NewWriteAheadLogWithFileLog (openAt path pos b) fs).2 = fs.
Proof.
  unfold NewWriteAheadLogWithFileLog.
  destruct (readAllLogEntries_state path pos b fs) as [pos' Hs].
  destruct (readAllLogEntries _) as [[m|e|msg] [fl' fs']]; cbn [snd] in *;
    now inversion Hs.
Qed.

End ReplayState.

(** ** Reads that fail *)

Lemma mbind_Err {S A B} (c : M S A) (k : A -> M S B) (s : S) (e : error) :
  (c s).1 = Err e -> (mbind c k s).1 = Err e.
Proof.
  unfold mbind. destruct (c s) as [[a|e'|msg] s']; cbn; congruence.
Qed.

Lemma on_file_Seek_ok (path : string) (pos : Z) (b : option (list byte)) (fs : FS)
  (o : Z) :
  0 <= o <= MaxInt64 ->
  on_file (Seek (int64 o) SeekStart) (openAt path pos b, fs)
  = (Ok o, (openAt path o b, fs)).
Proof.
  intros Ho. unfold MaxInt64 in Ho.
  unfold on_file, Seek, openAt. cbn [file buffer fname].
  rewrite int64_small by lia.
  destruct (Z.ltb_spec o 0); [lia | reflexivity].
Qed.

(** Fewer bytes than asked for are left in the file: [io.EOF] when none is
    left, [io.ErrUnexpectedEOF] otherwise. *)
Lemma on_file_ReadFull_short (path : string) (pos : Z) (b : option (list byte))
  (fs : FS) (pre rest : list byte) (n : Z) :
  file_bytes fs path = pre ++ rest ->
  Z.of_nat (length pre) = pos ->
  Z.of_nat (length rest) < n ->
  (on_file (ReadFull n) (openAt path pos b, fs)).1
  = Err (if decide (rest = []) then EOF else ErrUnexpectedEOF).
Proof.
  intros Hc Hp Hn. unfold on_file, ReadFull, openAt. cbn [file buffer].
  destruct (Z.eqb_spec n 0); [lia|].
  unfold remaining, size, contents. cbn [fname fpos]. rewrite Hc, length_app.
  destruct (decide (rest = [])) as [->|Hne].
  - cbn [length] in *.
    destruct (Z.leb_spec (Z.of_nat (length pre + 0)) pos); [|lia].
    cbn [length]. destruct (Z.leb_spec n (Z.of_nat 0)); [lia|]. reflexivity.
  - assert (0 < length rest)%nat by (destruct rest; [congruence | cbn; lia]).
    destruct (Z.leb_spec (Z.of_nat (length pre + length rest)) pos); [lia|].
    replace (Z.to_nat pos) with (length pre) by lia.
    rewrite drop_app_length.
    destruct (Z.leb_spec n (Z.of_nat (length rest))); [lia|].
    destruct (Z.eqb_spec (Z.of_nat (length rest)) 0); [lia|]. reflexivity.
Qed.

Lemma on_file_binary_Read_short (path : string) (pos : Z) (b : option (list byte))
  (fs : FS) (pre rest : list byte) (n : nat) :
  file_bytes fs path = pre ++ rest ->
  Z.of_nat (length pre) = pos ->
  (length rest < n)%nat ->
  (on_file (binary_Read n) (openAt path pos b, fs)).1
  = Err (if decide (rest = []) then EOF else ErrUnexpectedEOF).
Proof.
  intros Hc Hp Hn.
  pose proof (on_file_ReadFull_short path pos b fs pre rest (Z.of_nat n) Hc Hp) as Hs.
  unfold on_file, binary_Read, mbind, mret in *. cbn [openAt file buffer] in *.
  destruct (ReadFull (Z.of_nat n) _) as [[d|e|msg] [rcv fs']]; cbn [fst] in *;
    (specialize (Hs ltac:(lia)); now inversion Hs).
Qed.

(** Reading where a record was cut off while it was written: the first [k]
    bytes of its frame are the last bytes of the file. *)
Lemma Read_torn (path : string) (pos : Z) (b : option (list byte)) (fs : FS)
  (pre p : list byte) (k : nat) :
  file_bytes fs path = pre ++ take k (frame p) ->
  (k < length (frame p))%nat ->
  Z.of_nat (length pre) <= MaxInt64 ->
  Z.of_nat (length p) <= maxAlloc ->
  (Read (Z.of_nat (length pre)) (openAt path pos b, fs)).1
  = Err (if decide (k = 0 \/ k = 8 \/ k = 8 + length p)%nat
         then EOF else ErrUnexpectedEOF).
Proof.
  intros Hc Hk Ho Hr. pose proof (length_frame p) as Hlf.
  unfold Read. unfold mbind at 1. rewrite on_file_Seek_ok by lia.
  unfold maxAlloc, MaxInt64 in Ho, Hr.
  destruct (Nat.lt_ge_cases k 8) as [Hlt|Hge].
  { apply mbind_Err.
    rewrite (on_file_binary_Read_short path _ b fs pre (take k (frame p)) 8 Hc eq_refl)
      by (rewrite length_take; lia).
    f_equal. destruct (decide (take k (frame p) = [])) as [E|NE].
    - apply (f_equal length) in E. rewrite length_take in E. cbn [length] in E.
      destruct (decide _) as [_|N]; [reflexivity|]. exfalso. apply N. lia.
    - destruct (decide _) as [[->|[->| ->]]|_]; [|lia | lia | reflexivity].
      now rewrite take_0 in NE. }
  assert (take k (frame p)
          = be_put 8 (u64 (Z.of_nat (length p)))
              ++ take (k - 8) (p ++ be_put 4 (crc32.ChecksumIEEE p))) as Htake.
  { unfold frame. rewrite take_app_ge by (rewrite length_be_put; lia).
    now rewrite length_be_put. }
  rewrite Htake in Hc.
  unfold mbind at 1.
  rewrite (on_file_binary_Read_ok path _ b fs pre _ 8 (u64 (Z.of_nat (length p))) Hc eq_refl)
    by (rewrite u64_small; lia).
  rewrite u64_small by lia. rewrite u64_small in Hc by lia.
  destruct (Z.ltb_spec maxAlloc (Z.of_nat (length p))) as [|_];
    [unfold maxAlloc in *; lia|].
  destruct (Nat.lt_ge_cases (k - 8) (length p)) as [Hlt|Hge'].
  { apply mbind_Err.
    rewrite (on_file_ReadFull_short path _ b fs
               (pre ++ be_put 8 (Z.of_nat (length p)))
               (take (k - 8) (p ++ be_put 4 (crc32.ChecksumIEEE p)))).
    2:{ now rewrite <- app_assoc. }
    2:{ rewrite length_app, length_be_put. lia. }
    2:{ rewrite length_take. lia. }
    f_equal. destruct (decide (take (k - 8) _ = [])) as [E|NE].
    - apply (f_equal length) in E. rewrite length_take, length_app in E.
      cbn [length] in E.
      destruct (decide _) as [_|N]; [reflexivity|]. exfalso. apply N. lia.
    - destruct (decide _) as [[->|[->| ->]]|_]; [lia | | lia | reflexivity].
      now rewrite Nat.sub_diag, take_0 in NE. }
  assert (take (k - 8) (p ++ be_put 4 (crc32.ChecksumIEEE p))
          = p ++ take (k - 8 - length p) (be_put 4 (crc32.ChecksumIEEE p))) as Htake'.
  { now rewrite take_app_ge by lia. }
  rewrite Htake' in Hc.
  unfold mbind at 1.
  rewrite (on_file_ReadFull_ok path _ b fs (pre ++ be_put 8 (Z.of_nat (length p))) p
             (take (k - 8 - length p) (be_put 4 (crc32.ChecksumIEEE p)))).
  2:{ now rewrite <- app_assoc. }
  2:{ rewrite length_app, length_be_put. lia. }
  apply mbind_Err.
  rewrite (on_file_binary_Read_short path _ b fs
             (pre ++ be_put 8 (Z.of_nat (length p)) ++ p)
             (take (k - 8 - length p) (be_put 4 (crc32.ChecksumIEEE p))) 4).
  2:{ now rewrite <- !app_assoc. }
  2:{ rewrite !length_app, length_be_put. lia. }
  2:{ rewrite length_take. lia. }
  f_equal. destruct (decide (take (k - 8 - length p) _ = [])) as [E|NE].
  - apply (f_equal length) in E. rewrite length_take, length_be_put in E.
    cbn [length] in E.
    destruct (decide _) as [_|N]; [reflexivity|]. exfalso. apply N. lia.
  - destruct (decide _) as [[->|[->| ->]]|_]; [lia | | | reflexivity].
    + replace (8 - 8 - length p)%nat with 0%nat in NE by lia. now rewrite take_0 in NE.
    + replace (8 + length p - 8 - length p)%nat with 0%nat in NE by lia.
      now rewrite take_0 in NE.
Qed.

(** A length above what [make] accepts makes [Read] panic. *)
Lemma Read_oversized (path : string) (pos : Z) (b : option (list byte)) (fs : FS)
  (pre post : list byte) (n : Z) :
  file_bytes fs path = pre ++ be_put 8 n ++ post ->
  Z.of_nat (length pre) <= MaxInt64 ->
  maxAlloc < n < 2 ^ 64 ->
  (Read (Z.of_nat (length pre)) (openAt path pos b, fs)).1
  = Panic "makeslice: len out of range".
Proof.
  intros Hc Ho Hn. unfold maxAlloc in Hn.
  unfold Read. unfold mbind at 1. rewrite on_file_Seek_ok by lia.
  unfold mbind at 1.
  rewrite (on_file_binary_Read_ok path _ b fs pre post 8 n Hc eq_refl)
    by (change (256 ^ Z.of_nat 8) with (2 ^ 64); lia).
  destruct (Z.ltb_spec maxAlloc n) as [_|]; [|unfold maxAlloc in *; lia].
  reflexivity.
Qed.

Section Recovery.
Context `{Gob}.

(** What opening a store returns is what the replay of the file returns. *)
Lemma NewWriteAheadLog_recovered (path : string) (fs : FS) :
  exists fs',
    (forall p, file_bytes fs' p = file_bytes fs p)
    /\ recovered (NewWriteAheadLog path fs).1
       = (readAllLogEntries (openAt path 0 None, fs')).1.
Proof.
  destruct (OpenFile_spec path fs) as (fs' & Hopen & Hsame).
  exists fs'. split; [exact Hsame|].
  unfold NewWriteAheadLog, NewFileLog, mbind, mret. rewrite Hopen.
  unfold NewWriteAheadLogWithFileLog. fold (openAt path 0 None).
  destruct (readAllLogEntries _) as [[m|e|msg] [fl' fs'']]; reflexivity.
Qed.

(** The replay of a file that holds whole records and then something
    else is decided by the [Read] behind the records. *)
Lemma recovered_after_frames (path : string) (fs : FS) (ps : list (list byte))
  (tail : list byte) (m : gmap (list byte) slice) :
  file_bytes fs path = frames ps ++ tail ->
  Z.of_nat (length (frames ps)) <= MaxInt64 ->
  Forall (fun q => Z.of_nat (length q) <= maxAlloc) ps ->
  replay ps ∅ = Ok m ->
  exists fs' pos',
    file_bytes fs' path = frames ps ++ tail
    /\ forall e,
         (Read (Z.of_nat (length (frames ps))) (openAt path pos' None, fs')).1 = e ->
         match e with
         | Err e =>
             recovered (NewWriteAheadLog path fs).1
             = if decide (e = EOF) then Ok m else Err e
         | Panic msg => recovered (NewWriteAheadLog path fs).1 = Panic msg
         | Ok _ => True
         end.
Proof.
  intros Hc Hsz Hall Hrep.
  destruct (NewWriteAheadLog_recovered path fs) as (fs' & Hsame & ->).
  rewrite <- (Hsame path) in Hc.
  destruct (readAllLogEntries_prefix path 0 None fs' ps tail m Hc Hsz Hall Hrep)
    as (pos' & k & ->).
  exists fs', pos'. split; [exact Hc|]. intros e He.
  destruct (Read _ (openAt path pos' None, fs')) as [[[r next]|e'|msg] s'];
    cbn [fst] in He; subst e; [exact I | | reflexivity].
  destruct (decide (e' = EOF)); reflexivity.
Qed.

End Recovery.

(** ** The record log *)

(** X1. Records appended one after the other to an open log lie in the
    file in the order of the calls, each behind the one before: the offsets
    returned are the lengths the file had, and [Read] at the offset of the
    [i]-th record returns that record and, as the next offset, the offset of
    the record after it (the length of the file for the last one). *)
Theorem append_all_then_Read (path : string) (pos : Z) (b : option (list byte))
  (fs : FS) (rs : list (list byte)) :
  Z.of_nat (length (file_bytes fs path ++ frames rs)) <= MaxInt64 ->
  Forall (fun r => Z.of_nat (length r) <= maxAlloc) rs ->
  let start := Z.of_nat (length (file_bytes fs path)) in
  exists s',
    append_all rs (openAt path pos b, fs) = (Ok (offsets_from start rs), s')
    /\ file_bytes s'.2 path = file_bytes fs path ++ frames rs
    /\ forall i r o,
         rs !! i = Some r ->
         offsets_from start rs !! i = Some o ->
         (Read o s').1
         = Ok (r, default (Z.of_nat (length (file_bytes s'.2 path)))
                    (offsets_from start rs !! S i)).
Proof.
  intros Hsz Hall start.
  destruct (append_all_open rs path pos b fs Hsz) as (pos' & fs' & Hrun & Hc & _).
  exists (openAt path pos' b, fs'). split; [exact Hrun|]. split; [exact Hc|].
  intros i r o Hi Ho. cbn [snd].
  now apply (Read_offsets_from path pos' b fs' (file_bytes fs path) rs i r o).
Qed.

Lemma append_all_then_Read_witness :
  let fs : FS := {["log" := []]} in
  let rs := [bytes "hello, world"; bytes "goodbye, world"; bytes "another record"] in
  let start := Z.of_nat (length (file_bytes fs "log")) in
  exists s',
    append_all rs (openAt "log" 0 None, fs) = (Ok (offsets_from start rs), s')
    /\ file_bytes s'.2 "log" = file_bytes fs "log" ++ frames rs
    /\ forall i r o,
         rs !! i = Some r ->
         offsets_from start rs !! i = Some o ->
         (Read o s').1
         = Ok (r, default (Z.of_nat (length (file_bytes s'.2 "log")))
                    (offsets_from start rs !! S i)).
Proof.
  intros fs rs start.
  apply (append_all_then_Read "log" 0 None fs rs).
  - vm_compute. discriminate.
  - repeat constructor; vm_compute; discriminate.
Defined.

(** X2. The records of a log outlive its [Close]: a log opened with
    [NewFileLog] on the same path returns, at the offsets that [Append]
    returned, the records that were appended, each with the offset of the
    next. *)
Theorem records_survive_Close (path : string) (pos : Z) (b : option (list byte))
  (fs : FS) (rs : list (list byte)) :
  Z.of_nat (length (file_bytes fs path ++ frames rs)) <= MaxInt64 ->
  Forall (fun r => Z.of_nat (length r) <= maxAlloc) rs ->
  exists offsets fl1 fs1 fl2 fl3 fs3,
    append_all rs (openAt path pos b, fs) = (Ok offsets, (fl1, fs1))
    /\ Close (fl1, fs1) = (Ok tt, (fl2, fs1))
    /\ file fl2 = None
    /\ NewFileLog path fs1 = (Ok fl3, fs3)
    /\ length offsets = length rs
    /\ forall i r o,
         rs !! i = Some r ->
         offsets !! i = Some o ->
         (Read o (fl3, fs3)).1
         = Ok (r, default (Z.of_nat (length (file_bytes fs3 path))) (offsets !! S i)).
Proof.
  intros Hsz Hall.
  destruct (append_all_open rs path pos b fs Hsz) as (pos' & fs1 & Hrun & Hc & _).
  destruct (OpenFile_spec path fs1) as (fs3 & Hopen & Hsame).
  exists (offsets_from (Z.of_nat (length (file_bytes fs path))) rs),
    (openAt path pos' b), fs1, (mkFileLog None b), (openAt path 0 None), fs3.
  split; [exact Hrun|]. split; [reflexivity|]. split; [reflexivity|].
  split; [unfold NewFileLog, mbind, mret; now rewrite Hopen|].
  split.
  { clear. generalize (Z.of_nat (length (file_bytes fs path))).
    induction rs as [|r rs IH]; intros z; [reflexivity|].
    cbn [offsets_from length]. now rewrite IH. }
  intros i r o Hi Ho.
  apply (Read_offsets_from path 0 None fs3 (file_bytes fs path) rs i r o);
    [now rewrite Hsame | assumption ..].
Qed.

Lemma records_survive_Close_witness :
  let fs : FS := {["log" := []]} in
  let rs := [bytes "hello, world"; bytes "goodbye, world"] in
  exists offsets fl1 fs1 fl2 fl3 fs3,
    append_all rs (openAt "log" 0 None, fs) = (Ok offsets, (fl1, fs1))
    /\ Close (fl1, fs1) = (Ok tt, (fl2, fs1))
    /\ file fl2 = None
    /\ NewFileLog "log" fs1 = (Ok fl3, fs3)
    /\ length offsets = length rs
    /\ forall i r o,
         rs !! i = Some r ->
         offsets !! i = Some o ->
         (Read o (fl3, fs3)).1
         = Ok (r, default (Z.of_nat (length (file_bytes fs3 "log"))) (offsets !! S i)).
Proof.
  intros fs rs.
  apply (records_survive_Close "log" 0 None fs rs).
  - vm_compute. discriminate.
  - repeat constructor; vm_compute; discriminate.
Defined.

(** X3. [Append] only ever adds to the end of its own file. When it returns
    nil, the log was open, the offset returned is the length the file had,
    the file is the old bytes followed by the frame of the record, wherever
    the file offset stood before the call, and every other file is as it
    was. *)
Theorem Append_only_appends (record : list byte) (fl : FileLog) (fs : FS)
  (o : Z) (fl' : FileLog) (fs' : FS) :
  Append record (fl, fs) = (Ok o, (fl', fs')) ->
  exists f,
    file fl = Some f
    /\ o = size fs f
    /\ contents fs' f = contents fs f ++ frame record
    /\ (forall p, p <> fname f -> fs' !! p = fs !! p)
    /\ fl' = openAt (fname f) (size fs f + Z.of_nat (length (frame record)))
               (buffer fl).
Proof.
  intros E. destruct fl as [[[path pos]|] b].
  - fold (openAt path pos b) in E. rewrite Append_open in E. cbn zeta in E.
    destruct (_ <? _); [discriminate|]. inversion E; subst; clear E.
    exists (mkFile path pos). unfold size, contents. cbn [file fname buffer].
    split; [reflexivity|]. split; [reflexivity|].
    split; [apply file_bytes_insert|]. split; [|reflexivity].
    intros p Hp. apply lookup_insert_ne. congruence.
  - rewrite Append_closed in E. discriminate.
Qed.

Lemma Append_only_appends_witness :
  let fl := openAt "log" 3 None in
  let fs : FS := {["log" := frame (bytes "hello, world"); "other" := bytes "kept"]} in
  let record := bytes "goodbye, world" in
  let r := Append record (fl, fs) in
  exists f,
    file fl = Some f
    /\ 24 = size fs f
    /\ contents r.2.2 f = contents fs f ++ frame record
    /\ (forall p, p <> fname f -> r.2.2 !! p = fs !! p)
    /\ r.2.1 = openAt (fname f) (size fs f + Z.of_nat (length (frame record)))
                 (buffer fl).
Proof.
  intros fl fs record r.
  apply (Append_only_appends record fl fs 24 r.2.1 r.2.2).
  vm_refl.
Defined.

(** X4. A [Read] between two calls is without effect on [Append]: whatever
    offset was read and whatever came of it, the [Append] that follows
    returns what it would have returned without the [Read] and leaves the
    same log and the same files. *)
Theorem Append_after_Read (record : list byte) (o : Z) (fl : FileLog) (fs : FS) :
  Append record (Read o (fl, fs)).2 = Append record (fl, fs).
Proof.
  destruct fl as [[[path pos]|] b].
  - fold (openAt path pos b).
    destruct (Read_open_state path pos b fs o) as [pos' ->].
    now rewrite !Append_open.
  - now rewrite Read_closed.
Qed.

(** X5. Opening a store writes no record: [NewWriteAheadLog] creates the
    file empty when there is none at the path and otherwise leaves the file
    system as it is, whatever the file holds and whether the replay ends
    with a store, an error or a panic; a second [NewWriteAheadLog] on the
    path returns what the first returned. *)
Theorem NewWriteAheadLog_read_only `{Gob} (path : string) (fs : FS) :
  (NewWriteAheadLog path fs).2
  = match fs !! path with
    | Some _ => fs
    | None => <[path := []]> fs
    end
  /\ (forall p, file_bytes (NewWriteAheadLog path fs).2 p = file_bytes fs p)
  /\ NewWriteAheadLog path (NewWriteAheadLog path fs).2 = NewWriteAheadLog path fs.
Proof.
  assert (forall fs0, NewWriteAheadLog path fs0
                      = NewWriteAheadLogWithFileLog (openAt path 0 None) (OpenFile path fs0).2)
    as Hnew.
  { intros fs0. unfold NewWriteAheadLog, NewFileLog, mbind, mret.
    destruct (OpenFile_spec path fs0) as (fs' & -> & _). reflexivity. }
  assert (forall fs0, (NewWriteAheadLog path fs0).2 = (OpenFile path fs0).2) as Hfs.
  { intros fs0. rewrite Hnew. apply NewWriteAheadLogWithFileLog_fs. }
  split; [|split].
  - rewrite Hfs. unfold OpenFile. destruct (fs !! path); reflexivity.
  - intros p. rewrite Hfs.
    destruct (OpenFile_spec path fs) as (fs' & -> & Hsame). apply Hsame.
  - rewrite Hfs, (Hnew fs), (Hnew (OpenFile path fs).2). f_equal.
    unfold OpenFile. destruct (fs !! path) as [l|] eqn:E; cbn [snd].
    + now rewrite E.
    + now rewrite lookup_insert_eq.
Qed.

(** X6. A store cannot be built on a log that is closed: the first [Read]
    of the replay returns [os.ErrInvalid], which is returned, and no file is
    touched. *)
Theorem NewWriteAheadLogWithFileLog_closed `{Gob} (b : option (list byte)) (fs : FS) :
  NewWriteAheadLogWithFileLog (mkFileLog None b) fs = (Err ErrInvalid, fs).
Proof.
  unfold NewWriteAheadLogWithFileLog, readAllLogEntries, iterations.
  cbn [fst snd file readLoop]. rewrite Read_closed.
  destruct (decide (ErrInvalid = EOF)) as [E|_]; [discriminate|]. reflexivity.
Qed.

(** ** Recovery *)

(** X7. A last record that was cut off while it was written. When the file
    ends inside the length, inside the payload or inside the checksum of the
    record, the store does not open: [NewWriteAheadLog] returns
    [io.ErrUnexpectedEOF]. When the file ends right behind the length or
    right behind the payload, the [Read] of the replay returns [io.EOF], and
    the store opens with the records before it, as if the log ended there. *)
Theorem replay_torn_record `{Gob} (path : string) (fs : FS)
  (ps : list (list byte)) (p : list byte) (k : nat) (m : gmap (list byte) slice) :
  file_bytes fs path = frames ps ++ take k (frame p) ->
  (k < length (frame p))%nat ->
  Z.of_nat (length (frames ps)) <= MaxInt64 ->
  Forall (fun q => Z.of_nat (length q) <= maxAlloc) (p :: ps) ->
  replay ps ∅ = Ok m ->
  recovered (NewWriteAheadLog path fs).1
  = if decide (k = 0 \/ k = 8 \/ k = 8 + length p)%nat
    then Ok m else Err ErrUnexpectedEOF.
Proof.
  intros Hc Hk Hsz Hall Hrep. inversion Hall as [|? ? Hp Hps]; subst.
  destruct (recovered_after_frames path fs ps _ m Hc Hsz Hps Hrep)
    as (fs' & pos' & Hc' & Hread).
  specialize (Hread _ (Read_torn path pos' None fs' (frames ps) p k Hc' Hk Hsz Hp)).
  cbn beta iota in Hread. rewrite Hread.
  destruct (decide (k = 0 \/ k = 8 \/ k = 8 + length p)%nat).
  - destruct (decide (EOF = EOF)); [reflexivity | congruence].
  - destruct (decide (ErrUnexpectedEOF = EOF)); [discriminate | reflexivity].
Qed.

Lemma replay_torn_record_witness :
  let G := RefGob in
  let ps := [x00 :: be_put 4 1 ++ bytes "K" ++ bytes "A"] in
  let p := x00 :: be_put 4 1 ++ bytes "L" ++ bytes "B" in
  let k := 15%nat in
  let fs : FS := {["log" := frames ps ++ take k (frame p)]} in
  recovered (NewWriteAheadLog "log" fs).1
  = if decide (k = 0 \/ k = 8 \/ k = 8 + length p)%nat
    then Ok {[bytes "K" := Some (bytes "A")]} else Err ErrUnexpectedEOF.
Proof.
  intros G ps p k fs.
  apply (@replay_torn_record G "log" fs ps p k).
  - reflexivity.
  - vm_compute. lia.
  - vm_compute. discriminate.
  - repeat constructor; vm_compute; discriminate.
  - vm_refl.
Defined.

(** X8. A record whose stored checksum is not the checksum of its payload
    stops the replay: when the records before it are sound,
    [NewWriteAheadLog] returns the corruption error, whatever follows the
    record in the file, and no store is returned. *)
Theorem replay_stops_at_corruption `{Gob} (path : string) (fs : FS)
  (ps : list (list byte)) (r cs post : list byte) (m : gmap (list byte) slice) :
  file_bytes fs path
  = frames ps ++ be_put 8 (u64 (Z.of_nat (length r))) ++ r ++ cs ++ post ->
  length cs = 4%nat ->
  be_get cs <> crc32.ChecksumIEEE r ->
  Z.of_nat (length (frames ps)) <= MaxInt64 ->
  Forall (fun q => Z.of_nat (length q) <= maxAlloc) (r :: ps) ->
  replay ps ∅ = Ok m ->
  (NewWriteAheadLog path fs).1 = Err ErrCorruption.
Proof.
  intros Hc Hcs Hsum Hsz Hall Hrep. inversion Hall as [|? ? Hr Hps]; subst.
  destruct (recovered_after_frames path fs ps _ m Hc Hsz Hps Hrep)
    as (fs' & pos' & Hc' & Hread).
  specialize (Hread (Err ErrCorruption)).
  cbn beta iota in Hread.
  destruct (decide (ErrCorruption = EOF)) as [E|_]; [discriminate|].
  assert (recovered (NewWriteAheadLog path fs).1 = Err ErrCorruption) as Hrec.
  { apply Hread.
    rewrite (Read_stored path pos' None fs' (frames ps) r cs post Hc' Hcs Hsz Hr).
    cbn [fst]. destruct (Z.eqb_spec (crc32.ChecksumIEEE r) (be_get cs)); congruence. }
  destruct (NewWriteAheadLog path fs).1; cbn in Hrec; congruence.
Qed.

Lemma replay_stops_at_corruption_witness :
  let G := RefGob in
  let ps := [x00 :: be_put 4 1 ++ bytes "K" ++ bytes "A"] in
  let r := x00 :: be_put 4 1 ++ bytes "L" ++ bytes "B" in
  let cs := [x00; x00; x00; x00] in
  let post := frame (x01 :: be_put 4 1 ++ bytes "K") in
  let fs : FS :=
    {["log" := frames ps ++ be_put 8 (u64 (Z.of_nat (length r))) ++ r ++ cs ++ post]} in
  (NewWriteAheadLog "log" fs).1 = Err ErrCorruption.
Proof.
  intros G ps r cs post fs.
  apply (@replay_stops_at_corruption G "log" fs ps r cs post
           {[bytes "K" := Some (bytes "A")]}).
  - reflexivity.
  - reflexivity.
  - vm_compute. discriminate.
  - vm_compute. discriminate.
  - repeat constructor; vm_compute; discriminate.
  - vm_refl.
Defined.

(** X9. [Read] trusts the stored length before it has seen the checksum: a
    length field above what [make] accepts makes [Read] panic at that
    offset, and with it [NewWriteAheadLog] when the field follows the sound
    records of the file.  No error is returned. *)
Theorem oversized_length_panics `{Gob} (path : string) (pos : Z)
  (b : option (list byte)) (fs : FS) (ps : list (list byte)) (n : Z)
  (post : list byte) (m : gmap (list byte) slice) :
  file_bytes fs path = frames ps ++ be_put 8 n ++ post ->
  maxAlloc < n < 2 ^ 64 ->
  Z.of_nat (length (frames ps)) <= MaxInt64 ->
  Forall (fun q => Z.of_nat (length q) <= maxAlloc) ps ->
  replay ps ∅ = Ok m ->
  (Read (Z.of_nat (length (frames ps))) (openAt path pos b, fs)).1
  = Panic "makeslice: len out of range"
  /\ (NewWriteAheadLog path fs).1 = Panic "makeslice: len out of range".
Proof.
  intros Hc Hn Hsz Hall Hrep. split.
  - now apply (Read_oversized path pos b fs (frames ps) post n).
  - destruct (recovered_after_frames path fs ps _ m Hc Hsz Hall Hrep)
      as (fs' & pos' & Hc' & Hread).
    specialize (Hread _ (Read_oversized path pos' None fs' (frames ps) post n Hc' Hsz Hn)).
    cbn beta iota in Hread.
    destruct (NewWriteAheadLog path fs).1; cbn in Hread; congruence.
Qed.

Lemma oversized_length_panics_witness :
  let G := RefGob in
  let ps := [x00 :: be_put 4 1 ++ bytes "K" ++ bytes "A"] in
  let n := 2 ^ 56 in
  let fs : FS := {["log" := frames ps ++ be_put 8 n ++ bytes "rest"]} in
  (Read (Z.of_nat (length (frames ps))) (openAt "log" 0 None, fs)).1
  = Panic "makeslice: len out of range"
  /\ (NewWriteAheadLog "log" fs).1 = Panic "makeslice: len out of range".
Proof.
  intros G ps n fs.
  apply (@oversized_length_panics G "log" 0 None fs ps n (bytes "rest")
           {[bytes "K" := Some (bytes "A")]}).
  - reflexivity.
  - vm_compute. split; reflexivity.
  - vm_compute. discriminate.
  - repeat constructor; vm_compute; discriminate.
  - vm_refl.
Defined.

(** X10. The offset of [Read] is converted to [int64] for the seek: an
    offset of [2^63] or more becomes negative, the seek fails, and [Read]
    returns that error without having moved the file offset or read a byte. *)
Theorem Read_offset_above_int64 (path : string) (pos : Z) (b : option (list byte))
  (fs : FS) (o : Z) :
  2 ^ 63 <= o < 2 ^ 64 ->
  Read o (openAt path pos b, fs) = (Err EINVAL, (openAt path pos b, fs)).
Proof.
  intros Ho. unfold Read. unfold mbind at 1.
  unfold on_file at 1, Seek, openAt. cbn [file buffer fname].
  assert (int64 o = o - 2 ^ 64) as ->.
  { unfold int64, u64. rewrite Z.mod_small by lia.
    destruct (Z.ltb_spec o (2 ^ 63)); [lia | reflexivity]. }
  destruct (Z.ltb_spec (o - 2 ^ 64) 0); [reflexivity | lia].
Qed.

Lemma Read_offset_above_int64_witness :
  Read (2 ^ 64 - 1) (openAt "log" 7 None, {["log" := frame (bytes "hello, world")]})
  = (Err EINVAL, (openAt "log" 7 None, {["log" := frame (bytes "hello, world")]})).
Proof.
  apply (Read_offset_above_int64 "log" 7 None _ (2 ^ 64 - 1)). lia.
Defined.

(** X11. Opening a store on a file that holds whole records replays them:
    the payloads are decoded one after the other and applied to an empty map
    in the order in which they lie in the file; when all of them decode, the
    store holds the map that the [switch] of the loop builds from the
    decoded operations, a later record of a key overriding the earlier
    ones. *)
Theorem NewWriteAheadLog_replays `{Gob} (path : string) (fs : FS)
  (ps : list (list byte)) :
  file_bytes fs path = frames ps ->
  Z.of_nat (length (frames ps)) <= MaxInt64 ->
  Forall (fun p => Z.of_nat (length p) <= maxAlloc) ps ->
  recovered (NewWriteAheadLog path fs).1 = replay ps ∅
  /\ (forall ops,
        Forall2 (fun p op => gob_Decode p = Ok op) ps ops ->
        recovered (NewWriteAheadLog path fs).1
        = Ok (fold_left (fun d op => apply_op op d) ops ∅)).
Proof.
  intros Hc Hsz Hall.
  destruct (NewWriteAheadLog_frames path fs ps Hc Hsz Hall) as (fs' & pos' & _ & Hnew).
  assert (recovered (NewWriteAheadLog path fs).1 = replay ps ∅) as Hrec.
  { rewrite Hnew. cbn [fst]. destruct (replay ps ∅); reflexivity. }
  split; [exact Hrec|].
  intros ops Hops. rewrite Hrec. clear -Hops.
  generalize (∅ : gmap (list byte) slice).
  induction Hops as [|p op ps ops Hp _ IH]; intros m; [reflexivity|].
  cbn [replay fold_left]. rewrite Hp. apply IH.
Qed.

Lemma NewWriteAheadLog_replays_witness :
  let G := RefGob in
  let ps := [x00 :: be_put 4 1 ++ bytes "K" ++ bytes "A";
             x00 :: be_put 4 1 ++ bytes "K" ++ bytes "B";
             x01 :: be_put 4 1 ++ bytes "K"] in
  let fs : FS := {["log" := frames ps]} in
  recovered (NewWriteAheadLog "log" fs).1 = replay ps ∅
  /\ (forall ops,
        Forall2 (fun p op => gob_Decode p = Ok op) ps ops ->
        recovered (NewWriteAheadLog "log" fs).1
        = Ok (fold_left (fun d op => apply_op op d) ops ∅)).
Proof.
  intros G ps fs.
  apply (@NewWriteAheadLog_replays G "log" fs ps).
  - reflexivity.
  - vm_compute. discriminate.
  - repeat constructor; vm_compute; discriminate.
Defined.

Section Termination.
Context `{Gob}.

Lemma readLoop_more_fuel (fuel : nat) :
  forall (extra : nat) (data : gmap (list byte) slice) (o : Z) (s : FileLog * FS) r,
    readLoop fuel data o s = Some r ->
    readLoop (fuel + extra) data o s = Some r.
Proof.
  induction fuel as [|fuel IH]; intros extra data o s r E; [discriminate|].
  cbn [readLoop Nat.add] in *.
  destruct (Read o s) as [[[record next]|e|msg] s']; [|exact E ..].
  destruct (gob_Decode record) as [op|e|msg]; [|exact E ..].
  now apply IH.
Qed.

End Termination.

(** X12. The loop of [readAllLogEntries] comes to an end on every file,
    sound or not: it returns within as many iterations as the file has
    bytes, plus one, and more iterations would not change what it returns.
    Each iteration that goes on has read a whole record, at least twelve
    bytes, further on in the file. *)
Theorem readAllLogEntries_terminates `{Gob} (s : FileLog * FS) (fuel : nat) :
  (iterations s <= fuel)%nat ->
  readLoop fuel ∅ 0 s = Some (readAllLogEntries s).
Proof.
  intros Hf. replace fuel with (iterations s + (fuel - iterations s))%nat by lia.
  apply readLoop_more_fuel, readAllLogEntries_readLoop.
Qed.

Lemma readAllLogEntries_terminates_witness :
  let G := RefGob in
  let s : FileLog * FS :=
    (openAt "log" 0 None,
     {["log" := frames [x00 :: be_put 4 1 ++ bytes "K" ++ bytes "A"] ++ [x00; x01]]}) in
  readLoop 100 ∅ 0 s = Some (readAllLogEntries s).
Proof.
  intros G s.
  apply (@readAllLogEntries_terminates G s 100).
  vm_compute. lia.
Defined.

(** X14. What a store leaves in its file. After mutations that all returned
    nil on a store opened on an empty file, the file holds one frame for each
    call, in the order of the calls and nothing else: the frame of what gob
    has encoded of the operation, type [PUT] with key and value for a [Put],
    type [DELETE] with the key and no value for a [Delete]. *)
Theorem session_writes_frames `{Gob} (path : string) (fs : FS) (cs : list Cmd)
  (wal : WriteAheadLog) (fs1 : FS) :
  file_bytes fs path = [] ->
  session path cs fs = (Ok wal, fs1) ->
  exists bufs,
    Forall2 (fun c buf =>
               gob_Encode
                 match c with
                 | CPut key value => mkWriteOperation PUT key value
                 | CDelete key => mkWriteOperation DELETE key None
                 end = Ok buf) cs bufs
    /\ file_bytes fs1 path = frames bufs
    /\ length bufs = length cs.
Proof.
  intros Hc Hs. unfold session in Hs.
  destruct (NewWriteAheadLog_empty path fs Hc) as (fs0 & pos & Hsame & Hnew).
  rewrite Hnew in Hs.
  destruct (run cs _) as [[[]|e|msg] [wal1 fs1']] eqn:Hrun; inversion Hs; subst.
  apply run_open in Hrun; [|rewrite Hsame, Hc; vm_compute; discriminate].
  destruct Hrun as (bufs & pos' & Hall & Hc1 & _ & _).
  rewrite Hsame, Hc in Hc1. exists bufs. split; [|split].
  - eapply Forall2_impl; [exact Hall|]. intros c buf E. now destruct c.
  - exact Hc1.
  - symmetry. eapply Forall2_length, Hall.
Qed.

Lemma session_writes_frames_witness :
  let G := RefGob in
  let cs := [CPut (Some (bytes "K")) (Some (bytes "A")); CDelete (Some (bytes "K"))] in
  let wal := match (session "log" cs ∅).1 with
             | Ok wal => wal
             | _ => mkWriteAheadLog (mkFileLog None None) ∅
             end in
  let fs1 := (session "log" cs ∅).2 in
  exists bufs,
    Forall2 (fun c buf =>
               gob_Encode
                 match c with
                 | CPut key value => mkWriteOperation PUT key value
                 | CDelete key => mkWriteOperation DELETE key None
                 end = Ok buf) cs bufs
    /\ file_bytes fs1 "log" = frames bufs
    /\ length bufs = length cs.
Proof.
  intros G cs wal fs1.
  apply (@session_writes_frames G "log" ∅ cs wal fs1).
  - reflexivity.
  - vm_refl.
Defined.
